(** * Grid game server: the simulation core of [server/game]

    A shallow embedding of the Go package [game] (the world store, the
    per-tick command resolver, player admission and the round loop) and
    the properties its specification states about it.

    Conventions of the embedding:
    - Go's [int] and [int64] are 64-bit two's complement integers; they are
      carried as [Z] and every arithmetic result goes through [wrap].
    - Go maps are [gmap]s.  The order in which [range] visits a map is not
      fixed by the language: it is supplied by [go_range], about which only
      "some permutation of the entries" is known, and nothing else is used
      in the proofs.
    - The pseudo-random generator [*rand.Rand] is a source of raw draws
      together with the number of draws consumed so far.
    - Buffered channels are lists bounded by their capacity; a send inside
      [select ... default] that finds the buffer full drops the message.
    - JSON payloads are kept as structured messages.
    - A Go panic is the [Panic] result. *)

From stdpp Require Import gmap strings list fin_maps pretty sorting.

Local Open Scope Z_scope.

(** ** Machine integers *)

Definition int_min : Z := - 2 ^ 63.
Definition int_max : Z := 2 ^ 63 - 1.

Definition is_int (z : Z) : Prop := int_min ≤ z ≤ int_max.

(** Two's complement wrap-around of a 64-bit signed integer. *)
Definition wrap (z : Z) : Z := (z + 2 ^ 63) `mod` 2 ^ 64 - 2 ^ 63.

(** [helpers] of game.go; they shadow the library's [min] and [max] on
    natural numbers from here on. *)
Definition min (a b : Z) : Z := if a <? b then a else b.
Definition max (a b : Z) : Z := if a >? b then a else b.
Definition clamp (v a b : Z) : Z :=
  if v <? a then a else if v >? b then b else v.

(** ** Data model *)

Record Player := mkPlayer {
  ID : string;
  Name : string;
  X : Z;
  Y : Z;
  Score : Z
}.

Record Sweet := mkSweet {
  SweetID : string;
  SweetX : Z;
  SweetY : Z
}.

(** The field [Type] of the Go struct is [Type_] here. *)
Record Command := mkCommand {
  PlayerID : string;
  Type_ : string;
  Dir : string;
  CmdX : Z;
  CmdY : Z
}.

(** Go's zero value of [Command], what [last[id]] yields for a missing key. *)
Global Instance Command_inhabited : Inhabited Command :=
  populate (mkCommand "" "" "" 0 0).

Global Instance Player_eq_dec : EqDecision Player.
Proof. solve_decision. Defined.
Global Instance Sweet_eq_dec : EqDecision Sweet.
Proof. solve_decision. Defined.
Global Instance Command_eq_dec : EqDecision Command.
Proof. solve_decision. Defined.

(** What travels on [StateBroadcast] and [EventBroadcast], before JSON. *)
Inductive Msg :=
  | StateMessage (tk : Z) (ps : list Player) (ss : list Sweet)
  | CollectedEvent (player sweet : string) (tk : Z)
  | GameOverEvent (scores : list (string * string * Z)).

Global Instance Msg_eq_dec : EqDecision Msg.
Proof. solve_decision. Defined.

(** [*rand.Rand]: the raw draws and how many were consumed. *)
Record Rand := mkRand {
  rand_src : nat → Z;
  rand_pos : nat
}.

Record Game := mkGame {
  W : Z;
  H : Z;
  players : gmap string Player;
  sweets : gmap string Sweet;
  commands : list Command;
  StateBroadcast : list Msg;
  EventBroadcast : list Msg;
  tick : Z;
  rand : Rand
}.

Definition set_players (f : gmap string Player → gmap string Player) (g : Game) : Game :=
  mkGame (W g) (H g) (f (players g)) (sweets g) (commands g)
         (StateBroadcast g) (EventBroadcast g) (tick g) (rand g).
Definition set_sweets (f : gmap string Sweet → gmap string Sweet) (g : Game) : Game :=
  mkGame (W g) (H g) (players g) (f (sweets g)) (commands g)
         (StateBroadcast g) (EventBroadcast g) (tick g) (rand g).
Definition set_commands (f : list Command → list Command) (g : Game) : Game :=
  mkGame (W g) (H g) (players g) (sweets g) (f (commands g))
         (StateBroadcast g) (EventBroadcast g) (tick g) (rand g).
Definition set_StateBroadcast (f : list Msg → list Msg) (g : Game) : Game :=
  mkGame (W g) (H g) (players g) (sweets g) (commands g)
         (f (StateBroadcast g)) (EventBroadcast g) (tick g) (rand g).
Definition set_EventBroadcast (f : list Msg → list Msg) (g : Game) : Game :=
  mkGame (W g) (H g) (players g) (sweets g) (commands g)
         (StateBroadcast g) (f (EventBroadcast g)) (tick g) (rand g).
Definition set_tick (f : Z → Z) (g : Game) : Game :=
  mkGame (W g) (H g) (players g) (sweets g) (commands g)
         (StateBroadcast g) (EventBroadcast g) (f (tick g)) (rand g).
Definition set_rand (r : Rand) (g : Game) : Game :=
  mkGame (W g) (H g) (players g) (sweets g) (commands g)
         (StateBroadcast g) (EventBroadcast g) (tick g) r.

Definition set_pos (x y : Z) (p : Player) : Player :=
  mkPlayer (ID p) (Name p) x y (Score p).
Definition set_score (s : Z) (p : Player) : Player :=
  mkPlayer (ID p) (Name p) (X p) (Y p) s.

(** ** Panics *)

Inductive Result (A : Type) :=
  | Ok (a : A)
  | Panic.
Global Arguments Ok {A} a.
Global Arguments Panic {A}.

Global Instance Result_bind : MBind Result := λ A B k r,
  match r with
  | Ok a => k a
  | Panic => Panic
  end.

(** ** Channels and the random source *)

Definition commands_cap : nat := 1024.
Definition broadcast_cap : nat := 10.

(** [select { case ch <- v: default: }] on a channel of capacity [cap]. *)
Definition try_send {A} (cap : nat) (ch : list A) (v : A) : list A :=
  if decide (length ch < cap)%nat then ch ++ [v] else ch.

(** [r.Intn(n)]: panics unless [0 < n], otherwise a value of [[0, n)],
    here the next raw draw reduced modulo [n]; any sequence of values in
    range is what some source yields. *)
Definition Intn (r : Rand) (n : Z) : Result (Z * Rand) :=
  if decide (n ≤ 0) then Panic
  else Ok (rand_src r (rand_pos r) `mod` n, mkRand (rand_src r) (S (rand_pos r))).

(** [fmt.Sprintf(prefix + "%d", n)] *)
Definition sprintf_d (prefix : string) (n : Z) : string := prefix +:+ pretty n.

(** ** Iteration order of maps *)

Class MapRange := {
  go_range : ∀ {V : Type}, gmap string V → list (string * V);
  go_range_perm : ∀ {V : Type} (m : gmap string V), go_range m ≡ₚ map_to_list m
}.

(** One admissible order, used to run the model on concrete states. *)
Definition canonical_range : MapRange :=
  {| go_range := λ V m, map_to_list m;
     go_range_perm := λ V m, reflexivity (map_to_list m) |}.

(** ** game.go *)

Section Model.
Context {MR : MapRange}.

(** The body of the loop [for i := 0; i < nSweets; i++] shared by [NewGame]
    and [Restart]: [n] iterations are left and [i] is the loop counter. *)
Fixpoint gen_sweets (n : nat) (i : Z) (w h : Z)
    (ss : gmap string Sweet) (r : Rand) : Result (gmap string Sweet * Rand) :=
  match n with
  | O => Ok (ss, r)
  | S n' =>
      '(x, r1) ← Intn r w;
      '(y, r2) ← Intn r1 h;
      let id := sprintf_d "s" (i + 1) in
      gen_sweets n' (i + 1) w h (<[id := mkSweet id x y]> ss) r2
  end.

(** [NewGame(w, h, nSweets)]; [seed] stands for the generator seeded with
    the clock. *)
Definition NewGame (seed : nat → Z) (w h nSweets : Z) : Result Game :=
  '(ss, r) ← gen_sweets (Z.to_nat nSweets) 0 w h ∅ (mkRand seed 0);
  Ok (mkGame w h ∅ ss [] [] [] 0 r).

(** An entry of the list sorted in [applyCommands]: player id and the
    arrival index of its last command. *)
Definition entry : Type := string * nat.

(** [for idx, c := range cmds { last[c.PlayerID] = c; lastIndex[c.PlayerID] = idx }],
    started at index [idx]. *)
Fixpoint group_last (idx : nat) (cmds : list Command)
    (acc : gmap string Command * gmap string nat)
    : gmap string Command * gmap string nat :=
  match cmds with
  | [] => acc
  | c :: cs =>
      group_last (S idx) cs
        (<[PlayerID c := c]> acc.1, <[PlayerID c := idx]> acc.2)
  end.

(** [sort.Slice(entries, func(i, j) { return entries[i].idx < entries[j].idx })],
    as an insertion sort. *)
Fixpoint insert_entry (e : entry) (l : list entry) : list entry :=
  match l with
  | [] => [e]
  | x :: l' => if (e.2 <? x.2)%nat then e :: l else x :: insert_entry e l'
  end.

Definition sort_entries (l : list entry) : list entry :=
  foldr insert_entry [] l.

(** [for _, p := range g.players { occupied[[2]int{p.X, p.Y}] = p.ID }] *)
Definition build_occupied (ps : list (string * Player)) : gmap (Z * Z) string :=
  foldl (λ occ kp, <[(X kp.2, Y kp.2) := ID kp.2]> occ) ∅ ps.

(** The [switch c.Type] of [applyCommands]: the desired position. *)
Definition dest (g : Game) (p : Player) (c : Command) : Z * Z :=
  if decide (Type_ c = "move") then
    if decide (Dir c = "up") then (X p, max 0 (wrap (Y p - 1)))
    else if decide (Dir c = "down") then (X p, min (wrap (H g - 1)) (wrap (Y p + 1)))
    else if decide (Dir c = "left") then (max 0 (wrap (X p - 1)), Y p)
    else if decide (Dir c = "right") then (min (wrap (W g - 1)) (wrap (X p + 1)), Y p)
    else (X p, Y p)
  else if decide (Type_ c = "move_abs") then
    (clamp (CmdX c) 0 (wrap (W g - 1)), clamp (CmdY c) 0 (wrap (H g - 1)))
  else (X p, Y p).

(** [occ, exists := occupied[cell]; exists && occ != p.ID] *)
Definition blocked (occupied : gmap (Z * Z) string) (cell : Z * Z) (id : string) : bool :=
  match occupied !! cell with
  | Some occ => bool_decide (occ ≠ id)
  | None => false
  end.

(** The first sweet of the iteration that lies on [(x, y)]. *)
Fixpoint first_sweet_at (l : list (string * Sweet)) (x y : Z) : option string :=
  match l with
  | [] => None
  | (sid, s) :: l' =>
      if (SweetX s =? x) && (SweetY s =? y) then Some sid
      else first_sweet_at l' x y
  end.

(** The "check sweet" loop, run for the player [p] stored under [id]. *)
Definition collect (id : string) (p : Player) (g : Game) : Game :=
  match first_sweet_at (go_range (sweets g)) (X p) (Y p) with
  | Some sid =>
      set_EventBroadcast
        (λ ch, try_send broadcast_cap ch (CollectedEvent (ID p) sid (tick g)))
        (set_sweets (delete sid)
           (set_players <[id := set_score (wrap (Score p + 1)) p]> g))
  | None => g
  end.

(** One iteration of [for _, e := range entries]. *)
Definition process_entry (last : gmap string Command)
    (st : Game * gmap (Z * Z) string) (e : entry) : Game * gmap (Z * Z) string :=
  let id := e.1 in
  let c := last !!! id in
  match players st.1 !! id with
  | None => st
  | Some p =>
      let cell := dest st.1 p c in
      if blocked st.2 cell (ID p) then st
      else
        let p' := set_pos cell.1 cell.2 p in
        (collect id p' (set_players <[id := p']> st.1),
         <[cell := ID p]> (delete (X p, Y p) st.2))
  end.

(** [applyCommands]: drain the queue, keep the last command of each
    player, order the players by arrival index, resolve. *)
Definition applyCommands (g : Game) : Game :=
  let cmds := commands g in
  let g0 := set_commands (λ _, []) g in
  match cmds with
  | [] => g0
  | _ =>
      let '(last, lastIndex) := group_last 0 cmds (∅, ∅) in
      let entries := sort_entries (go_range lastIndex) in
      let occupied := build_occupied (go_range (players g0)) in
      (foldl (process_entry last) (g0, occupied) entries).1
  end.

Definition broadcastState (g : Game) : Game :=
  let ps := snd <$> go_range (players g) in
  let ss := snd <$> go_range (sweets g) in
  set_StateBroadcast
    (λ ch, try_send broadcast_cap ch (StateMessage (tick g) ps ss)) g.

(** One turn of the loop of [Start] in game.go. *)
Definition Start_tick (g : Game) : Game :=
  broadcastState (applyCommands (set_tick (λ t, wrap (t + 1)) g)).

(** [free] of [AddPlayer]: no player of the iteration stands on [(x, y)]. *)
Definition free (ps : list (string * Player)) (x y : Z) : bool :=
  negb (existsb (λ kp, (X kp.2 =? x) && (Y kp.2 =? y)) ps).

(** The loop [for i := 0; i < 1000; i++] of [AddPlayer], [n] probes left. *)
Fixpoint probe (n : nat) (g : Game) (r : Rand) : Result (option (Z * Z) * Rand) :=
  match n with
  | O => Ok (None, r)
  | S n' =>
      '(x, r1) ← Intn r (W g);
      '(y, r2) ← Intn r1 (H g);
      if free (go_range (players g)) x y then Ok (Some (x, y), r2)
      else probe n' g r2
  end.

(** The cells in the order of [for y := 0; y < g.H; y++ { for x := 0; x < g.W; x++ ]. *)
Definition grid_cells (g : Game) : list (Z * Z) :=
  y ← seqZ 0 (H g); (λ x, (x, y)) <$> seqZ 0 (W g).

Definition scan (g : Game) : option (Z * Z) :=
  snd <$> list_find (λ c, free (go_range (players g)) c.1 c.2 = true) (grid_cells g).

Definition AddPlayer (name : string) (g : Game) : Result (option Player * Game) :=
  let id := sprintf_d "p-" (Z.of_nat (size (players g)) + 1) in
  '(found, r) ← probe 1000 g (rand g);
  let g1 := set_rand r g in
  match found with
  | Some (x, y) =>
      let p := mkPlayer id name x y 0 in
      Ok (Some p, set_players <[id := p]> g1)
  | None =>
      match scan g1 with
      | Some (x, y) =>
          let id := sprintf_d "p-" (Z.of_nat (size (players g1)) + 1) in
          let p := mkPlayer id name x y 0 in
          Ok (Some p, set_players <[id := p]> g1)
      | None => Ok (None, g1)
      end
  end.

Definition SetSweet (id : string) (x y : Z) (g : Game) : Game :=
  set_sweets <[id := mkSweet id x y]> g.

Definition ClearSweets (g : Game) : Game := set_sweets (λ _, ∅) g.

Definition SetPlayerPosition (id : string) (x y : Z) (g : Game) : Game :=
  set_players (alter (set_pos x y) id) g.

Definition GetPlayer (id : string) (g : Game) : option Player := players g !! id.

Definition SweetsCount (g : Game) : Z := Z.of_nat (size (sweets g)).

Definition RemovePlayer (id : string) (g : Game) : Game :=
  set_players (delete id) g.

Definition PushCommand (c : Command) (g : Game) : Game :=
  set_commands (λ q, try_send commands_cap q c) g.

End Model.

(** ** The revision of game.go with rounds

    This revision of the package ends a round when no sweet is left: the
    loop of [Start] emits [game_over], sleeps and calls [Restart].  Its
    [applyCommands] handles the commands one by one, at most
    [MaxMovesPerTick] accepted moves per player, and knows no [move_abs].
    The types, [NewGame], [AddPlayer], [broadcastState] and the accessors
    are those of the section above. *)

Module Round.
Section Model.
Context {MR : MapRange}.

Definition MaxMovesPerTick : Z := 2.

(** The [switch c.Type] of this revision. *)
Definition dest (g : Game) (p : Player) (c : Command) : Z * Z :=
  if decide (Type_ c = "move") then
    if decide (Dir c = "up") then (X p, max 0 (wrap (Y p - 1)))
    else if decide (Dir c = "down") then (X p, min (wrap (H g - 1)) (wrap (Y p + 1)))
    else if decide (Dir c = "left") then (max 0 (wrap (X p - 1)), Y p)
    else if decide (Dir c = "right") then (min (wrap (W g - 1)) (wrap (X p + 1)), Y p)
    else (X p, Y p)
  else (X p, Y p).

(** [other.ID != p.ID && other.X == nx && other.Y == ny] for some [other]. *)
Definition collision (ps : list (string * Player)) (p : Player) (nx ny : Z) : bool :=
  existsb (λ kp, bool_decide (ID kp.2 ≠ ID p) && (X kp.2 =? nx) && (Y kp.2 =? ny)) ps.

(** One iteration of [for _, c := range cmds]; a missing key of
    [movesCount] reads as 0. *)
Definition process_command (st : Game * gmap string Z) (c : Command)
    : Game * gmap string Z :=
  let count := default 0 (st.2 !! PlayerID c) in
  if decide (MaxMovesPerTick ≤ count) then st
  else
    match players st.1 !! PlayerID c with
    | None => st
    | Some p =>
        let cell := dest st.1 p c in
        if collision (go_range (players st.1)) p cell.1 cell.2 then st
        else
          let p' := set_pos cell.1 cell.2 p in
          (collect (PlayerID c) p' (set_players <[PlayerID c := p']> st.1),
           <[PlayerID c := wrap (count + 1)]> st.2)
    end.

Definition applyCommands (g : Game) : Game :=
  let cmds := commands g in
  let g0 := set_commands (λ _, []) g in
  match cmds with
  | [] => g0
  | _ => (foldl process_command (g0, ∅) cmds).1
  end.

(** [Restart]: scores to zero, twenty new sweets, the queue emptied. *)
Definition Restart (g : Game) : Result Game :=
  let g1 := set_players (fmap (set_score 0)) g in
  '(ss, r) ← gen_sweets 20 0 (W g1) (H g1) ∅ (rand g1);
  Ok (set_commands (λ _, []) (set_rand r (set_sweets (λ _, ss) g1))).

(** The [scores] of the [game_over] message. *)
Definition final_scores (g : Game) : list (string * string * Z) :=
  (λ kp, (ID kp.2, Name kp.2, Score kp.2)) <$> go_range (players g).

(** One turn of the loop of [Start].  [during_pause] are the commands the
    sessions submit while the loop sleeps before [Restart]. *)
Definition Start_tick (during_pause : list Command) (g : Game) : Result Game :=
  let g1 := broadcastState (applyCommands (set_tick (λ t, wrap (t + 1)) g)) in
  if decide (SweetsCount g1 = 0) then
    let g2 :=
      set_EventBroadcast
        (λ ch, try_send broadcast_cap ch (GameOverEvent (final_scores g1))) g1 in
    Restart (foldl (λ g c, PushCommand c g) g2 during_pause)
  else Ok g1.

End Model.
End Round.

(** ** Predicates of the specification *)

(** *** The grid and the players on it *)

Definition in_grid (g : Game) (x y : Z) : Prop := 0 ≤ x < W g ∧ 0 ≤ y < H g.

Definition in_bounds (g : Game) : Prop :=
  ∀ id p, players g !! id = Some p → in_grid g (X p) (Y p).

(** Every player is stored under the id it carries, as [AddPlayer] does. *)
Definition keyed_by_id (g : Game) : Prop :=
  ∀ id p, players g !! id = Some p → ID p = id.

(** No two distinct players share a cell. *)
Definition no_overlap (g : Game) : Prop :=
  ∀ id1 id2 p1 p2,
    players g !! id1 = Some p1 → players g !! id2 = Some p2 →
    X p1 = X p2 → Y p1 = Y p2 → id1 = id2.

(** The occupancy map holds exactly the cells of the players. *)
Definition occ_exact (g : Game) (occupied : gmap (Z * Z) string) : Prop :=
  ∀ cell id,
    occupied !! cell = Some id ↔
    ∃ p, players g !! id = Some p ∧ (X p, Y p) = cell.

(** No player stands on [(x, y)]. *)
Definition cell_free (g : Game) (x y : Z) : Prop :=
  ∀ id p, players g !! id = Some p → ¬ (X p = x ∧ Y p = y).

(** Every cell of the grid carries a player. *)
Definition grid_full (g : Game) : Prop :=
  ∀ x y, in_grid g x y → ¬ cell_free g x y.

(** *** The resolver *)

(** The specification's reduction of a drained queue: a command survives
    when its player sends nothing later; survivors keep their arrival
    index and their arrival order.  [idx] is the index of the head. *)
Fixpoint winners (idx : nat) (cmds : list Command) : list entry :=
  match cmds with
  | [] => []
  | c :: cs =>
      if bool_decide (PlayerID c ∈ PlayerID <$> cs) then winners (S idx) cs
      else (PlayerID c, idx) :: winners (S idx) cs
  end.

Definition entry_le (a b : entry) : Prop := (a.2 ≤ b.2)%nat.
Definition entry_lt (a b : entry) : Prop := (a.2 < b.2)%nat.

(** A command that asks for no displacement: a [move] with an unknown
    direction, or a type that is neither [move] nor [move_abs]. *)
Definition stay_put (c : Command) : Prop :=
  (Type_ c = "move" ∧ Dir c ≠ "up" ∧ Dir c ≠ "down" ∧ Dir c ≠ "left" ∧ Dir c ≠ "right") ∨
  (Type_ c ≠ "move" ∧ Type_ c ≠ "move_abs").

(** A loop iteration that accepts a move onto the player's own cell: the
    occupancy map is as before, and either no sweet lies on the cell and
    the game is as before, or one sweet of the cell is taken. *)
Definition accepted_in_place `{MR : MapRange} (last : gmap string Command)
    (st : Game * gmap (Z * Z) string) (e : entry) (p : Player) : Prop :=
  dest st.1 p (last !!! e.1) = (X p, Y p) ∧
  (process_entry last st e).2 = st.2 ∧
  (((∀ sid s, sweets st.1 !! sid = Some s → ¬ (SweetX s = X p ∧ SweetY s = Y p)) ∧
    (process_entry last st e).1 = st.1) ∨
   (∃ sid s,
      sweets st.1 !! sid = Some s ∧ SweetX s = X p ∧ SweetY s = Y p ∧
      (process_entry last st e).1 =
        set_EventBroadcast
          (λ ch, try_send broadcast_cap ch (CollectedEvent (ID p) sid (tick st.1)))
          (set_sweets (delete sid)
             (set_players <[e.1 := set_score (wrap (Score p + 1)) p]> st.1)))).

(** *** Sweets and rounds *)

(** No two sweets share a cell. *)
Definition sweets_apart (g : Game) : Prop :=
  ∀ id1 id2 s1 s2,
    sweets g !! id1 = Some s1 → sweets g !! id2 = Some s2 →
    SweetX s1 = SweetX s2 → SweetY s1 = SweetY s2 → id1 = id2.

(** The sweets of [g] are [n] sweets named s1 .. sn, each stored under its
    id and lying inside the grid. *)
Definition fresh_sweets (g : Game) (n : nat) : Prop :=
  size (sweets g) = n ∧
  ∀ id s, sweets g !! id = Some s →
    SweetID s = id ∧ in_grid g (SweetX s) (SweetY s) ∧
    ∃ k, 1 ≤ k ≤ Z.of_nat n ∧ id = sprintf_d "s" k.

Definition is_game_over (m : Msg) : bool :=
  match m with
  | GameOverEvent _ => true
  | _ => false
  end.

(** How many [game_over] messages wait in a channel. *)
Definition count_game_over (ch : list Msg) : nat :=
  length (filter (λ m, is_game_over m = true) ch).

(** What the resolver of the revision with rounds never touches. *)
Definition round_frame (g : Game) (st : Game * gmap string Z) : Prop :=
  W st.1 = W g ∧ H st.1 = H g ∧ rand st.1 = rand g ∧ tick st.1 = tick g ∧
  commands st.1 = [] ∧
  count_game_over (EventBroadcast st.1) = count_game_over (EventBroadcast g).

(** ** Concrete games *)

(** The arrival-order scenario of the test suite: a 3x3 grid, P1 at (0,1),
    P2 at (2,1), one sweet at (1,1); P1 asks to go right, P2 left. *)
Definition duel_players : gmap string Player :=
  <["p-1" := mkPlayer "p-1" "A" 0 1 0]> (<["p-2" := mkPlayer "p-2" "B" 2 1 0]> ∅).
Definition duel_sweets : gmap string Sweet := <["s1" := mkSweet "s1" 1 1]> ∅.
Definition duel (g : Game) : Prop :=
  W g = 3 ∧ H g = 3 ∧ players g = duel_players ∧ sweets g = duel_sweets ∧
  commands g = [].
Definition p1_right : Command := mkCommand "p-1" "move" "right" 0 0.
Definition p2_left : Command := mkCommand "p-2" "move" "left" 0 0.

(** The duel on an otherwise fresh game. *)
Definition duel_game : Game :=
  mkGame 3 3 duel_players duel_sweets [] [] [] 0 (mkRand (λ _, 0) 0).

(** A player standing on a sweet, and a command with a direction the
    resolver does not know. *)
Definition picnic_game : Game :=
  mkGame 3 3 (<["p-1" := mkPlayer "p-1" "A" 1 1 0]> ∅)
    (<["s1" := mkSweet "s1" 1 1]> ∅)
    [mkCommand "p-1" "move" "north" 0 0] [] [] 7 (mkRand (λ _, 0) 0).

(** The loop of [applyCommands] on [picnic_game], at its first entry. *)
Definition picnic_last : gmap string Command :=
  (group_last 0 (commands picnic_game) (∅, ∅)).1.
Definition picnic_state : Game * gmap (Z * Z) string :=
  (set_commands (λ _, []) picnic_game,
   build_occupied (@go_range canonical_range _ (players picnic_game))).

(** A queue holding only a command of a player that is not in the game. *)
Definition ghost_game : Game :=
  mkGame 3 3 duel_players duel_sweets
    [mkCommand "p-9" "move" "up" 0 0] [] [] 7 (mkRand (λ _, 0) 0).

(** A 1x1 grid whose only cell is taken. *)
Definition crowded_game : Game :=
  mkGame 1 1 (<["p-1" := mkPlayer "p-1" "A" 0 0 0]> ∅) ∅ [] [] [] 0
    (mkRand (λ i, Z.of_nat i) 0).

(** A session of joins and leaves on a fresh 3x3 game without sweets:
    A joins, B joins, A leaves, C joins.  The result holds the three
    players handed out and the game before and after C's join. *)
Definition churn `{MR : MapRange}
    : Result (option Player * option Player * option Player * Game * Game) :=
  g0 ← NewGame (λ i, Z.of_nat i) 3 3 0;
  '(a, g1) ← AddPlayer "A" g0;
  '(b, g2) ← AddPlayer "B" g1;
  let g3 := RemovePlayer "p-1" g2 in
  '(c, g4) ← AddPlayer "C" g3;
  Ok (a, b, c, g3, g4).

(** The last sweet of a round is about to be taken: P1 is next to it and
    has asked to step on it; P2 has a point already. *)
Definition last_sweet_game : Game :=
  mkGame 3 3
    (<["p-1" := mkPlayer "p-1" "A" 0 1 4]> (<["p-2" := mkPlayer "p-2" "B" 2 2 1]> ∅))
    duel_sweets [p1_right] [] [] 41 (mkRand (λ i, Z.of_nat i) 0).

(** ** The unit tests of the package, as runs of the model *)

(** [TestMoveAndCollision]: p-1 at (1,1) asks to go right, where p-2 is. *)
Definition collision_test `{MR : MapRange} : Game :=
  applyCommands
    (PushCommand (mkCommand "p-1" "move" "right" 0 0)
       (mkGame 3 3
          (<["p-1" := mkPlayer "p-1" "A" 1 1 0]>
             (<["p-2" := mkPlayer "p-2" "B" 2 1 0]> ∅))
          ∅ [] [] [] 0 (mkRand (λ i, Z.of_nat i) 0))).

(** [TestCollectSweet]: p-1 at (0,0) steps right onto the sweet at (1,0). *)
Definition collect_test `{MR : MapRange} : Game :=
  applyCommands
    (PushCommand (mkCommand "p-1" "move" "right" 0 0)
       (mkGame 3 3 (<["p-1" := mkPlayer "p-1" "A" 0 0 0]> ∅)
          (<["s1" := mkSweet "s1" 1 0]> ∅) [] [] [] 0
          (mkRand (λ i, Z.of_nat i) 0))).

(** [TestCollectedEventEmitted]: the game is set up through [AddPlayer],
    [SetPlayerPosition] and [SetSweet]; a [nil] player makes the test
    dereference [nil]. *)
Definition event_test `{MR : MapRange} : Result Game :=
  g ← NewGame (λ i, Z.of_nat i) 3 3 0;
  '(joined, g) ← AddPlayer "A" g;
  match joined with
  | None => Panic
  | Some p =>
      let g := SetPlayerPosition (ID p) 0 0 g in
      let g := SetSweet "s1" 1 0 g in
      let g := PushCommand (mkCommand (ID p) "move" "right" 0 0) g in
      Ok (applyCommands g)
  end.

(** * Properties *)

(** ** Integers *)

Lemma wrap_id z : is_int z → wrap z = z.
Proof.
  unfold is_int, int_min, int_max, wrap. intros Hz.
  rewrite Z.mod_small by lia. lia.
Qed.

Lemma wrap_is_int z : is_int (wrap z).
Proof.
  unfold is_int, int_min, int_max, wrap.
  pose proof (Z.mod_pos_bound (z + 2 ^ 63) (2 ^ 64)). lia.
Qed.

Lemma clamp_bounds v a b : a ≤ b → a ≤ clamp v a b ≤ b.
Proof. unfold clamp. intros. repeat case_match; lia. Qed.

(** ** Loops *)

Lemma foldl_invariant {A B} (P : A → Prop) (f : A → B → A) (l : list B) (a : A) :
  (∀ a b, b ∈ l → P a → P (f a b)) → P a → P (foldl f a l).
Proof.
  revert a. induction l as [|b l IH]; intros a Hf Ha; simpl; [done|].
  apply IH.
  - intros a' b' Hb'. apply Hf. by right.
  - apply Hf; [by left|done].
Qed.

(** ** Fields that the setters leave alone *)

Section Properties.
Context {MR : MapRange}.

Lemma collect_None id p g :
  first_sweet_at (go_range (sweets g)) (X p) (Y p) = None → collect id p g = g.
Proof. unfold collect. by intros ->. Qed.

Lemma collect_Some id p g sid :
  first_sweet_at (go_range (sweets g)) (X p) (Y p) = Some sid →
  collect id p g =
    set_EventBroadcast
      (λ ch, try_send broadcast_cap ch (CollectedEvent (ID p) sid (tick g)))
      (set_sweets (delete sid)
         (set_players <[id := set_score (wrap (Score p + 1)) p]> g)).
Proof. unfold collect. by intros ->. Qed.

Lemma collect_W id p g : W (collect id p g) = W g.
Proof. unfold collect. by case_match. Qed.
Lemma collect_H id p g : H (collect id p g) = H g.
Proof. unfold collect. by case_match. Qed.
Lemma collect_tick id p g : tick (collect id p g) = tick g.
Proof. unfold collect. by case_match. Qed.
Lemma collect_commands id p g : commands (collect id p g) = commands g.
Proof. unfold collect. by case_match. Qed.
Lemma collect_rand id p g : rand (collect id p g) = rand g.
Proof. unfold collect. by case_match. Qed.

(** After the sweet check the player under [id] is [p], up to its score;
    every other entry is as before. *)
Lemma collect_players id p g :
  ∃ s, players (collect id p (set_players <[id := p]> g))
       = <[id := set_score s p]> (players g).
Proof.
  unfold collect. case_match; simpl.
  - eexists. by rewrite insert_insert_eq.
  - exists (Score p). by destruct p.
Qed.

Lemma process_entry_W last st e : W (process_entry last st e).1 = W st.1.
Proof.
  unfold process_entry. repeat case_match; simpl; by rewrite ?collect_W.
Qed.
Lemma process_entry_H last st e : H (process_entry last st e).1 = H st.1.
Proof.
  unfold process_entry. repeat case_match; simpl; by rewrite ?collect_H.
Qed.
Lemma process_entry_tick last st e : tick (process_entry last st e).1 = tick st.1.
Proof.
  unfold process_entry. repeat case_match; simpl; by rewrite ?collect_tick.
Qed.

(** ** Bounds *)

(** A subtraction or an addition that stays inside the machine integers. *)
Ltac no_wrap := apply wrap_id; unfold is_int, int_min, int_max in *; lia.

Lemma dest_in_grid g p c :
  is_int (W g) → is_int (H g) → in_grid g (X p) (Y p) →
  in_grid g (dest g p c).1 (dest g p c).2.
Proof.
  unfold in_grid. intros HW HH [HX HY].
  assert (wrap (W g - 1) = W g - 1) as EW by no_wrap.
  assert (wrap (H g - 1) = H g - 1) as EH by no_wrap.
  assert (wrap (X p - 1) = X p - 1) as EX1 by no_wrap.
  assert (wrap (X p + 1) = X p + 1) as EX2 by no_wrap.
  assert (wrap (Y p - 1) = Y p - 1) as EY1 by no_wrap.
  assert (wrap (Y p + 1) = Y p + 1) as EY2 by no_wrap.
  unfold dest. rewrite EW, EH, EX1, EX2, EY1, EY2.
  repeat case_decide; simpl; unfold min, max;
    try (pose proof (clamp_bounds (CmdX c) 0 (W g - 1));
         pose proof (clamp_bounds (CmdY c) 0 (H g - 1)));
    repeat case_match; lia.
Qed.

Lemma process_entry_in_bounds last st e :
  is_int (W st.1) → is_int (H st.1) →
  in_bounds st.1 → in_bounds (process_entry last st e).1.
Proof.
  intros HW HH Hb. unfold process_entry. cbv zeta.
  destruct (players st.1 !! e.1) as [p|] eqn:Hp; [|done].
  case_match; [done|]. simpl.
  pose proof (dest_in_grid st.1 p (last !!! e.1) HW HH (Hb _ _ Hp)) as Hd.
  destruct (collect_players e.1 (set_pos (dest st.1 p (last !!! e.1)).1
              (dest st.1 p (last !!! e.1)).2 p) st.1) as [s Hs].
  intros id q Hq. unfold in_grid. rewrite collect_W, collect_H. simpl.
  rewrite Hs in Hq.
  destruct (decide (e.1 = id)) as [E|Hne].
  - rewrite <- E, lookup_insert_eq in Hq. by simplify_eq.
  - rewrite lookup_insert_ne in Hq by done. by apply Hb in Hq.
Qed.

Lemma applyCommands_in_bounds g :
  is_int (W g) → is_int (H g) → in_bounds g → in_bounds (applyCommands g).
Proof.
  intros HW HH Hb. unfold applyCommands.
  destruct (commands g) as [|c cs]; [done|].
  destruct (group_last 0 (c :: cs) (∅, ∅)) as [last lastIndex].
  set (P := λ st : Game * gmap (Z * Z) string,
              W st.1 = W g ∧ H st.1 = H g ∧ in_bounds st.1).
  cut (P (foldl (process_entry last)
           (set_commands (λ _, []) g,
            build_occupied (go_range (players (set_commands (λ _, []) g))))
           (sort_entries (go_range lastIndex)))).
  { by intros (_ & _ & ?). }
  apply foldl_invariant; [|done].
  intros st e _ (EW & EH & Hst). unfold P.
  rewrite process_entry_W, process_entry_H. split_and!; try done.
  apply process_entry_in_bounds; by rewrite ?EW, ?EH.
Qed.

End Properties.

Create Rewrite HintDb frame.
#[global] Hint Rewrite @collect_W @collect_H @collect_tick @collect_commands
  @collect_rand : frame.

(** ** The occupancy map *)

Section Occupancy.
Context {MR : MapRange}.

Lemma build_occupied_snoc l kp :
  build_occupied (l ++ [kp]) = <[(X kp.2, Y kp.2) := ID kp.2]> (build_occupied l).
Proof. unfold build_occupied. by rewrite foldl_app. Qed.

(** When the players listed on a cell all carry the same id, the map built
    from the list records that id. *)
Lemma build_occupied_lookup (l : list (string * Player)) cell id :
  (∀ kp1 kp2, kp1 ∈ l → kp2 ∈ l →
     (X kp1.2, Y kp1.2) = (X kp2.2, Y kp2.2) → ID kp1.2 = ID kp2.2) →
  build_occupied l !! cell = Some id ↔
  ∃ kp, kp ∈ l ∧ (X kp.2, Y kp.2) = cell ∧ ID kp.2 = id.
Proof.
  induction l as [|kp l IH] using rev_ind; intros Huniq.
  - split; [done|]. intros (kp & Hin & _). by apply elem_of_nil in Hin.
  - rewrite build_occupied_snoc.
    assert (∀ kp1 kp2, kp1 ∈ l → kp2 ∈ l →
      (X kp1.2, Y kp1.2) = (X kp2.2, Y kp2.2) → ID kp1.2 = ID kp2.2) as Hl.
    { intros ?? H1 H2. apply Huniq; apply elem_of_app; by left. }
    specialize (IH Hl).
    destruct (decide ((X kp.2, Y kp.2) = cell)) as [E|Hne].
    + rewrite E, lookup_insert_eq. split.
      * intros [= <-]. exists kp. split_and!; [|done..].
        apply elem_of_app. right. by apply list_elem_of_singleton.
      * intros (kp' & Hin & Hc & <-). f_equal.
        apply Huniq; [|done|congruence].
        apply elem_of_app. right. by apply list_elem_of_singleton.
    + rewrite lookup_insert_ne by done. rewrite IH. split.
      * intros (kp' & Hin & ?). exists kp'. split; [|done].
        apply elem_of_app. by left.
      * intros (kp' & Hin & Hc & Hid). exists kp'. split; [|done].
        apply elem_of_app in Hin as [?|Hin]; [done|].
        apply list_elem_of_singleton in Hin. by subst.
Qed.

Lemma elem_of_go_range {V} (m : gmap string V) k v :
  (k, v) ∈ go_range m ↔ m !! k = Some v.
Proof. rewrite go_range_perm. apply elem_of_map_to_list. Qed.

Lemma build_occupied_exact g :
  keyed_by_id g → no_overlap g →
  occ_exact g (build_occupied (go_range (players g))).
Proof.
  intros Hk Hno cell id. rewrite build_occupied_lookup.
  - split.
    + intros ([k p] & Hin & Hc & Hid). apply elem_of_go_range in Hin. simpl in *.
      exists p. split; [|done]. by rewrite <- Hid, (Hk _ _ Hin).
    + intros (p & Hp & Hc). exists (id, p). split_and!; [|done|by apply Hk].
      by apply elem_of_go_range.
  - intros [k1 p1] [k2 p2] H1%elem_of_go_range H2%elem_of_go_range [= HX HY].
    simpl in *. rewrite (Hk _ _ H1), (Hk _ _ H2). by eapply Hno.
Qed.

Lemma occ_exact_no_overlap g occupied : occ_exact g occupied → no_overlap g.
Proof.
  intros Hocc id1 id2 p1 p2 H1 H2 HX HY.
  assert (occupied !! (X p1, Y p1) = Some id1) as E1 by (apply Hocc; eauto).
  assert (occupied !! (X p1, Y p1) = Some id2) as E2.
  { apply Hocc. exists p2. split; [done|]. by rewrite HX, HY. }
  congruence.
Qed.

(** The loop invariant of [for _, e := range entries]. *)
Lemma process_entry_invariant last st e :
  keyed_by_id st.1 ∧ occ_exact st.1 st.2 →
  keyed_by_id (process_entry last st e).1 ∧
  occ_exact (process_entry last st e).1 (process_entry last st e).2.
Proof.
  intros [Hk Hocc]. unfold process_entry. cbv zeta.
  destruct (players st.1 !! e.1) as [p|] eqn:Hp; [|done].
  set (cell := dest st.1 p (last !!! e.1)).
  destruct (blocked st.2 cell (ID p)) eqn:Hb; [done|]. simpl.
  destruct (collect_players e.1 (set_pos cell.1 cell.2 p) st.1) as [s Hs].
  pose proof (Hk _ _ Hp) as Hid.
  assert (∀ id', st.2 !! cell = Some id' → id' = e.1) as Hfree.
  { intros id' E. unfold blocked in Hb. rewrite E in Hb.
    apply bool_decide_eq_false in Hb. apply dec_stable in Hb. congruence. }
  split.
  - intros id q. rewrite Hs. destruct (decide (e.1 = id)) as [E|Hne].
    + rewrite <- E, lookup_insert_eq. by intros [= <-].
    + rewrite lookup_insert_ne by done. apply Hk.
  - intros c' id'. rewrite Hs, Hid.
    destruct (decide (cell = c')) as [Ec|Hc].
    + rewrite <- Ec, lookup_insert_eq. split.
      * intros [= <-]. rewrite lookup_insert_eq. eexists. split; [done|].
        simpl. symmetry. apply surjective_pairing.
      * intros (q & Hq & Hpos). f_equal.
        destruct (decide (e.1 = id')) as [|Hne]; [done|].
        rewrite lookup_insert_ne in Hq by done.
        symmetry. apply Hfree, Hocc. eauto.
    + rewrite lookup_insert_ne by done.
      destruct (decide ((X p, Y p) = c')) as [Eo|Ho].
      * rewrite <- Eo, lookup_delete_eq. split; [done|].
        intros (q & Hq & Hpos). exfalso.
        destruct (decide (e.1 = id')) as [E|Hne].
        -- rewrite <- E, lookup_insert_eq in Hq. simplify_eq. simpl in *.
           apply Hc. by apply injective_projections.
        -- rewrite lookup_insert_ne in Hq by done.
           assert (st.2 !! (X p, Y p) = Some id') as E1 by (apply Hocc; eauto).
           assert (st.2 !! (X p, Y p) = Some e.1) as E2 by (apply Hocc; eauto).
           congruence.
      * rewrite lookup_delete_ne by done. rewrite (Hocc c' id').
        destruct (decide (e.1 = id')) as [E|Hne].
        -- rewrite <- E, lookup_insert_eq, Hp. split.
           ++ intros (q & [= <-] & Hpos). by destruct Ho.
           ++ intros (q & [= <-] & Hpos). simpl in Hpos. destruct Hc.
              rewrite <- Hpos. apply surjective_pairing.
        -- by rewrite lookup_insert_ne.
Qed.

Lemma applyCommands_invariant g :
  keyed_by_id g → no_overlap g →
  keyed_by_id (applyCommands g) ∧ no_overlap (applyCommands g).
Proof.
  intros Hk Hno. unfold applyCommands.
  destruct (commands g) as [|c cs]; [done|].
  destruct (group_last 0 (c :: cs) (∅, ∅)) as [last lastIndex].
  set (P := λ st : Game * gmap (Z * Z) string,
              keyed_by_id st.1 ∧ occ_exact st.1 st.2).
  cut (P (foldl (process_entry last)
           (set_commands (λ _, []) g,
            build_occupied (go_range (players (set_commands (λ _, []) g))))
           (sort_entries (go_range lastIndex)))).
  { intros [? ?]. eauto using occ_exact_no_overlap. }
  apply foldl_invariant.
  - intros st e _. apply process_entry_invariant.
  - split; [done|]. by apply (build_occupied_exact (set_commands (λ _, []) g)).
Qed.

End Occupancy.

(** ** One command per player, in arrival order *)

Section Arrival.
Context {MR : MapRange}.

Global Instance entry_le_trans : Transitive entry_le.
Proof. unfold entry_le. intros ???. lia. Qed.

Lemma insert_entry_perm e l : insert_entry e l ≡ₚ e :: l.
Proof.
  induction l as [|x l IH]; simpl; [done|].
  case_match; [done|]. rewrite IH. apply Permutation_swap.
Qed.

Lemma sort_entries_perm l : sort_entries l ≡ₚ l.
Proof.
  induction l as [|x l IH]; simpl; [done|].
  by rewrite insert_entry_perm, IH.
Qed.

Lemma insert_entry_sorted e l :
  StronglySorted entry_le l → StronglySorted entry_le (insert_entry e l).
Proof.
  induction 1 as [|x l Hl IH Hx]; simpl.
  - repeat constructor.
  - case_match eqn:Hlt.
    + apply Nat.ltb_lt in Hlt. constructor; [by constructor|].
      constructor; [unfold entry_le; lia|].
      eapply Forall_impl; [done|]. unfold entry_le. intros; simpl in *. lia.
    + apply Nat.ltb_ge in Hlt. constructor; [done|].
      rewrite insert_entry_perm. by constructor.
Qed.

Lemma sort_entries_sorted l : StronglySorted entry_le (sort_entries l).
Proof.
  induction l as [|x l IH]; simpl; [constructor|].
  by apply insert_entry_sorted.
Qed.

(** An entry of [winners] is a command of the queue at that index, and its
    player sends nothing after it. *)
Lemma elem_of_winners idx cmds id i :
  (id, i) ∈ winners idx cmds ↔
  (idx ≤ i)%nat ∧
  ∃ c, cmds !! (i - idx)%nat = Some c ∧ PlayerID c = id ∧
       id ∉ (PlayerID <$> drop (S (i - idx)) cmds).
Proof.
  revert idx. induction cmds as [|c cs IH]; intros idx; simpl.
  - split; [by intros ?%elem_of_nil|]. by intros (_ & ? & ? & _).
  - assert ((id, i) ∈ winners (S idx) cs ↔
            (idx < i)%nat ∧ ∃ c', cs !! (i - S idx)%nat = Some c' ∧
              PlayerID c' = id ∧ id ∉ (PlayerID <$> drop (S (i - S idx)) cs)) as IH'.
    { rewrite IH. split; intros [? ?]; (split; [lia|done]). }
    case_bool_decide as Hin.
    + rewrite IH'. split.
      * intros [Hlt (c' & Hc' & Hid & Hno)].
        split; [lia|]. replace (i - idx)%nat with (S (i - S idx)) by lia.
        simpl. eauto.
      * intros [Hle (c' & Hc' & Hid & Hno)].
        destruct (decide (i = idx)) as [->|Hne].
        { rewrite Nat.sub_diag in Hc', Hno. simpl in *. simplify_eq.
          by rewrite drop_0 in Hno. }
        split; [lia|]. replace (i - idx)%nat with (S (i - S idx)) in * by lia.
        simpl in *. eauto.
    + rewrite elem_of_cons, IH'. split.
      * intros [[= -> ->]|[Hlt (c' & Hc' & Hid & Hno)]].
        { split; [lia|]. rewrite Nat.sub_diag. simpl. rewrite drop_0. eauto. }
        split; [lia|]. replace (i - idx)%nat with (S (i - S idx)) by lia.
        simpl. eauto.
      * intros [Hle (c' & Hc' & Hid & Hno)].
        destruct (decide (i = idx)) as [->|Hne].
        { left. rewrite Nat.sub_diag in Hc'. simpl in *. by simplify_eq. }
        right. split; [lia|].
        replace (i - idx)%nat with (S (i - S idx)) in * by lia.
        simpl in *. eauto.
Qed.

Lemma winners_sorted idx cmds : StronglySorted entry_le (winners idx cmds).
Proof.
  revert idx. induction cmds as [|c cs IH]; intros idx; simpl; [constructor|].
  case_bool_decide; [done|]. constructor; [done|].
  apply Forall_forall. intros [id i] [Hi _]%elem_of_winners.
  unfold entry_le. simpl. lia.
Qed.

Lemma winners_NoDup idx cmds : NoDup (winners idx cmds).
Proof.
  revert idx. induction cmds as [|c cs IH]; intros idx; simpl; [constructor|].
  case_bool_decide; [done|]. constructor; [|done].
  intros [Hi _]%elem_of_winners. lia.
Qed.

(** The two maps of the grouping loop, read through [winners]. *)
Lemma group_last_index idx cmds acc id i :
  (group_last idx cmds acc).2 !! id = Some i ↔
  (id, i) ∈ winners idx cmds ∨
  (acc.2 !! id = Some i ∧ id ∉ (PlayerID <$> cmds)).
Proof.
  revert idx acc. induction cmds as [|c cs IH]; intros idx acc; simpl.
  - split.
    + intros ?. right. split; [done|]. by intros ?%elem_of_nil.
    + by intros [?%elem_of_nil|[? _]].
  - rewrite IH. simpl. rewrite not_elem_of_cons.
    destruct (decide (PlayerID c = id)) as [<-|Hne].
    + rewrite lookup_insert_eq. case_bool_decide as Hin.
      * split; [intros [?|[_ ?]]; [by left|done]|].
        intros [?|[_ [? _]]]; [by left|done].
      * rewrite elem_of_cons. split.
        -- intros [?|[[= <-] _]]; [by left; right|by left; left].
        -- intros [[[= <-]|?]|[_ [? _]]]; [by right|by left|done].
    + rewrite lookup_insert_ne by done. case_bool_decide as Hin.
      * split; [intros [?|[? ?]]; [by left|by right]|].
        intros [?|[? [_ ?]]]; [by left|by right].
      * rewrite elem_of_cons. split.
        -- intros [?|[? ?]]; [by left; right|by right].
        -- intros [[[= ? ?]|?]|[? [_ ?]]]; [done|by left|by right].
Qed.

Lemma group_last_cmd idx cmds acc id i :
  (id, i) ∈ winners idx cmds →
  (group_last idx cmds acc).1 !! id = cmds !! (i - idx)%nat.
Proof.
  revert idx acc. induction cmds as [|c cs IH]; intros idx acc; simpl.
  - by intros ?%elem_of_nil.
  - assert (∀ acc', id ∉ PlayerID <$> cs →
      (group_last (S idx) cs acc').1 !! id = acc'.1 !! id) as Hframe.
    { clear. revert idx. induction cs as [|c' cs IH]; intros idx acc' Hno; simpl; [done|].
      apply not_elem_of_cons in Hno as [? ?].
      rewrite IH by done. simpl. by rewrite lookup_insert_ne. }
    case_bool_decide as Hin.
    + intros Hw. pose proof Hw as [Hi _]%elem_of_winners.
      rewrite (IH _ _ Hw). by replace (i - idx)%nat with (S (i - S idx)) by lia.
    + intros [[= -> ->]|Hw]%elem_of_cons.
      * rewrite Hframe by done. simpl. by rewrite lookup_insert_eq, Nat.sub_diag.
      * pose proof Hw as [Hi _]%elem_of_winners.
        rewrite (IH _ _ Hw). by replace (i - idx)%nat with (S (i - S idx)) by lia.
Qed.

(** The sorted entries of [applyCommands] are the winners, whatever order
    the map of indices is visited in. *)
Lemma entries_winners cmds :
  sort_entries (go_range (group_last 0 cmds (∅, ∅)).2) = winners 0 cmds.
Proof.
  assert (go_range (group_last 0 cmds (∅, ∅)).2 ≡ₚ winners 0 cmds) as Hperm.
  { rewrite go_range_perm. apply NoDup_Permutation.
    - apply NoDup_map_to_list.
    - apply winners_NoDup.
    - intros [id i]. rewrite elem_of_map_to_list, group_last_index. simpl.
      rewrite lookup_empty. split; [intros [?|[? _]]; done|by left]. }
  apply (StronglySorted_unique_strong entry_le).
  - intros [id1 i1] [id2 i2] H1 H2. unfold entry_le. simpl. intros ??.
    assert (i1 = i2) as -> by lia. f_equal.
    rewrite sort_entries_perm, Hperm in H1.
    apply elem_of_winners in H1 as (_ & c1 & Hc1 & <- & _).
    apply elem_of_winners in H2 as (_ & c2 & Hc2 & <- & _). congruence.
  - apply sort_entries_sorted.
  - apply winners_sorted.
  - by rewrite sort_entries_perm.
Qed.

End Arrival.

(** ** Single steps of the resolver *)

Section Steps.
Context {MR : MapRange}.

Lemma first_sweet_at_Some l x y sid :
  first_sweet_at l x y = Some sid →
  ∃ s, (sid, s) ∈ l ∧ SweetX s = x ∧ SweetY s = y.
Proof.
  induction l as [|[k s] l IH]; simpl; [done|].
  destruct ((SweetX s =? x) && (SweetY s =? y)) eqn:E.
  - intros [= <-]. apply andb_true_iff in E as [?%Z.eqb_eq ?%Z.eqb_eq].
    exists s. split_and!; [by left|done..].
  - intros (s' & ? & ?)%IH. exists s'. split; [by right|done].
Qed.

Lemma first_sweet_at_None l x y :
  first_sweet_at l x y = None ↔
  ∀ sid s, (sid, s) ∈ l → ¬ (SweetX s = x ∧ SweetY s = y).
Proof.
  induction l as [|[k s] l IH]; simpl.
  - split; [|done]. by intros _ ?? ?%elem_of_nil.
  - destruct ((SweetX s =? x) && (SweetY s =? y)) eqn:E.
    + apply andb_true_iff in E as [?%Z.eqb_eq ?%Z.eqb_eq]. split; [done|].
      intros Hall. destruct (Hall k s); [left|done].
    + rewrite IH. apply andb_false_iff in E. split.
      * intros Hall sid s' [[= -> ->]|?]%elem_of_cons; [|by apply (Hall sid)].
        intros [<- <-]. rewrite !Z.eqb_refl in E. by destruct E.
      * intros Hall sid s' ?. apply (Hall sid). by right.
Qed.

(** A sweet is taken exactly when one lies on the cell, and the one taken
    lies there. *)
Lemma collect_sweet_cases id p g :
  (collect id p g = g ∧
   ∀ sid s, sweets g !! sid = Some s → ¬ (SweetX s = X p ∧ SweetY s = Y p)) ∨
  (∃ sid s, sweets g !! sid = Some s ∧ SweetX s = X p ∧ SweetY s = Y p ∧
     collect id p g =
       set_EventBroadcast
         (λ ch, try_send broadcast_cap ch (CollectedEvent (ID p) sid (tick g)))
         (set_sweets (delete sid)
            (set_players <[id := set_score (wrap (Score p + 1)) p]> g))).
Proof.
  destruct (first_sweet_at (go_range (sweets g)) (X p) (Y p)) as [sid|] eqn:E.
  - right. pose proof (first_sweet_at_Some _ _ _ _ E) as (s & Hin & ? & ?).
    apply elem_of_go_range in Hin. exists sid, s. split_and!; try done.
    by apply collect_Some.
  - left. split; [by apply collect_None|].
    intros sid s Hs. eapply first_sweet_at_None; [done|].
    by apply elem_of_go_range.
Qed.

Lemma process_entry_dead last st e :
  players st.1 !! e.1 = None → process_entry last st e = st.
Proof. unfold process_entry. cbv zeta. by intros ->. Qed.

Lemma process_entry_blocked last st e p :
  players st.1 !! e.1 = Some p →
  blocked st.2 (dest st.1 p (last !!! e.1)) (ID p) = true →
  process_entry last st e = st.
Proof. unfold process_entry. cbv zeta. by intros -> ->. Qed.

Lemma process_entry_moved last st e p :
  players st.1 !! e.1 = Some p →
  blocked st.2 (dest st.1 p (last !!! e.1)) (ID p) = false →
  let cell := dest st.1 p (last !!! e.1) in
  let p' := set_pos cell.1 cell.2 p in
  process_entry last st e =
    (collect e.1 p' (set_players <[e.1 := p']> st.1),
     <[cell := ID p]> (delete (X p, Y p) st.2)).
Proof. unfold process_entry. cbv zeta. by intros -> ->. Qed.

Lemma blocked_true occupied cell id :
  blocked occupied cell id = true ↔
  ∃ occ, occupied !! cell = Some occ ∧ occ ≠ id.
Proof.
  unfold blocked. destruct (occupied !! cell) as [occ|].
  - rewrite bool_decide_eq_true. split; [eauto|]. by intros (? & [= <-] & ?).
  - split; [done|]. by intros (? & ? & _).
Qed.

Lemma blocked_false occupied cell id :
  blocked occupied cell id = false ↔
  occupied !! cell = None ∨ occupied !! cell = Some id.
Proof.
  unfold blocked. destruct (occupied !! cell) as [occ|].
  - rewrite bool_decide_eq_false. split.
    + intros ?%dec_stable. right. by f_equal.
    + intros [?|[= ->]]; [done|]. by intros ?.
  - split; [by left|done].
Qed.

(** [applyCommands] on a non-empty queue, with the sorted entries replaced
    by the winners. *)
Lemma applyCommands_unfold g :
  commands g ≠ [] →
  applyCommands g =
    (foldl (process_entry (group_last 0 (commands g) (∅, ∅)).1)
       (set_commands (λ _, []) g, build_occupied (go_range (players g)))
       (winners 0 (commands g))).1.
Proof.
  intros Hne. unfold applyCommands.
  destruct (commands g) as [|c cs] eqn:E; [done|].
  rewrite <- (entries_winners (c :: cs)).
  by destruct (group_last 0 (c :: cs) (∅, ∅)).
Qed.

Lemma applyCommands_empty g :
  commands g = [] → applyCommands g = g.
Proof. unfold applyCommands. intros E. rewrite E. destruct g. simpl in *. by subst. Qed.

End Steps.

(** ** First come, first served *)

Section Contest.
Context {MR : MapRange}.

Lemma dest_ext g g' p c : W g = W g' → H g = H g' → dest g p c = dest g' p c.
Proof. unfold dest. by intros -> ->. Qed.

(** What an accepted move leaves behind: the mover on its destination,
    one point richer when a sweet lay there, everybody else untouched. *)
Lemma process_entry_moved_players last st e p :
  players st.1 !! e.1 = Some p →
  blocked st.2 (dest st.1 p (last !!! e.1)) (ID p) = false →
  let cell := dest st.1 p (last !!! e.1) in
  let st' := process_entry last st e in
  st'.2 = <[cell := ID p]> (delete (X p, Y p) st.2) ∧
  ((players st'.1 = <[e.1 := set_pos cell.1 cell.2 p]> (players st.1) ∧
    sweets st'.1 = sweets st.1 ∧
    ∀ sid s, sweets st.1 !! sid = Some s → ¬ (SweetX s = cell.1 ∧ SweetY s = cell.2)) ∨
   (∃ sid s, sweets st.1 !! sid = Some s ∧ SweetX s = cell.1 ∧ SweetY s = cell.2 ∧
      players st'.1 =
        <[e.1 := set_score (wrap (Score p + 1)) (set_pos cell.1 cell.2 p)]> (players st.1) ∧
      sweets st'.1 = delete sid (sweets st.1))).
Proof.
  intros Hp Hb cell st'. unfold st'.
  rewrite (process_entry_moved last st e p Hp Hb). fold cell. simpl.
  split; [done|].
  destruct (collect_sweet_cases e.1 (set_pos cell.1 cell.2 p)
              (set_players <[e.1 := set_pos cell.1 cell.2 p]> st.1))
    as [[-> Hno]|(sid & s & Hs & HX & HY & ->)]; simpl in *.
  - left. split_and!; try done.
  - right. exists sid, s. split_and!; try done. by rewrite insert_insert_eq.
Qed.

(** Two players ask for the same free cell in one tick: the one whose
    entry comes first gets it, the other one is left where it was. *)
Lemma first_come_first_served last g occupied e1 e2 pa pb cell :
  keyed_by_id g → occ_exact g occupied → e1.1 ≠ e2.1 →
  players g !! e1.1 = Some pa → players g !! e2.1 = Some pb →
  dest g pa (last !!! e1.1) = cell → dest g pb (last !!! e2.1) = cell →
  occupied !! cell = None →
  let st := foldl (process_entry last) (g, occupied) [e1; e2] in
  players st.1 !! e2.1 = Some pb ∧
  ((players st.1 !! e1.1 = Some (set_pos cell.1 cell.2 pa) ∧
    ∀ sid s, sweets g !! sid = Some s → ¬ (SweetX s = cell.1 ∧ SweetY s = cell.2)) ∨
   (players st.1 !! e1.1 =
      Some (set_score (wrap (Score pa + 1)) (set_pos cell.1 cell.2 pa)) ∧
    ∃ sid s, sweets g !! sid = Some s ∧ SweetX s = cell.1 ∧ SweetY s = cell.2 ∧
             sweets st.1 = delete sid (sweets g))).
Proof.
  intros Hk Hocc Hne Ha Hb Hda Hdb Hfree. simpl.
  assert (blocked (g, occupied).2 (dest (g, occupied).1 pa (last !!! e1.1)) (ID pa) = false)
    as Hnb.
  { simpl. rewrite Hda. apply blocked_false. by left. }
  pose proof (process_entry_moved_players last (g, occupied) e1 pa Ha Hnb) as Hstep.
  simpl in Hstep. rewrite Hda in Hstep.
  set (st1 := process_entry last (g, occupied) e1) in *.
  destruct Hstep as [Hocc1 Hcases].
  assert (W st1.1 = W g ∧ H st1.1 = H g) as [EW EH].
  { unfold st1. by rewrite process_entry_W, process_entry_H. }
  assert (players st1.1 !! e2.1 = Some pb) as Hb1.
  { destruct Hcases as [(-> & _)|(? & ? & _ & _ & _ & -> & _)];
      by rewrite lookup_insert_ne. }
  assert (process_entry last st1 e2 = st1) as ->.
  { apply (process_entry_blocked _ _ _ pb Hb1).
    rewrite (dest_ext st1.1 g) by done. rewrite Hdb, Hocc1.
    apply blocked_true. exists (ID pa). rewrite lookup_insert_eq.
    split; [done|]. rewrite (Hk _ _ Ha), (Hk _ _ Hb). done. }
  split; [done|].
  destruct Hcases as [(-> & _ & Hno)|(sid & s & Hs & ? & ? & -> & ->)].
  - left. by rewrite lookup_insert_eq.
  - right. rewrite lookup_insert_eq. eauto 10.
Qed.

Lemma duel_players_lookup id p :
  duel_players !! id = Some p ↔
  (id = "p-1" ∧ p = mkPlayer "p-1" "A" 0 1 0) ∨
  (id = "p-2" ∧ p = mkPlayer "p-2" "B" 2 1 0).
Proof.
  unfold duel_players. split.
  - intros [[<- <-]|[_ [[<- <-]|[_ ?]]%lookup_insert_Some]]%lookup_insert_Some;
      [by left|by right|done].
  - by intros [[-> ->]|[-> ->]].
Qed.

Lemma duel_sweets_lookup sid s :
  duel_sweets !! sid = Some s ↔ sid = "s1" ∧ s = mkSweet "s1" 1 1.
Proof.
  unfold duel_sweets. split.
  - by intros [[<- <-]|[_ ?]]%lookup_insert_Some.
  - by intros [-> ->].
Qed.

Lemma duel_keyed g : duel g → keyed_by_id g.
Proof.
  intros (_ & _ & Hp & _) id p. rewrite Hp, duel_players_lookup.
  by intros [[-> ->]|[-> ->]].
Qed.

Lemma duel_no_overlap g : duel g → no_overlap g.
Proof.
  intros (_ & _ & Hp & _) id1 id2 p1 p2. rewrite Hp, !duel_players_lookup.
  by intros [[-> ->]|[-> ->]] [[-> ->]|[-> ->]].
Qed.

(** Whoever of the two is enqueued first takes the sweet of the duel. *)
Lemma duel_outcome g :
  duel g →
  let first := applyCommands (PushCommand p2_left (PushCommand p1_right g)) in
  let second := applyCommands (PushCommand p1_right (PushCommand p2_left g)) in
  (players first !! "p-1" = Some (mkPlayer "p-1" "A" 1 1 1) ∧
   players first !! "p-2" = Some (mkPlayer "p-2" "B" 2 1 0)) ∧
  (players second !! "p-2" = Some (mkPlayer "p-2" "B" 1 1 1) ∧
   players second !! "p-1" = Some (mkPlayer "p-1" "A" 0 1 0)).
Proof.
  intros Hd.
  pose proof (duel_keyed g Hd) as Hk. pose proof (duel_no_overlap g Hd) as Hno.
  destruct Hd as (HW & HH & Hp & Hs & Hq).
  pose proof (build_occupied_exact g Hk Hno) as Hocc.
  assert (build_occupied (go_range (players g)) !! (1, 1) = None) as Hfree.
  { apply eq_None_not_Some. intros [id (p & Hin & Hpos)%Hocc].
    rewrite Hp in Hin. apply duel_players_lookup in Hin.
    by destruct Hin as [[-> ->]|[-> ->]]. }
  assert (∀ c1 c2, commands (PushCommand c2 (PushCommand c1 g)) = [c1; c2]) as Hcmds.
  { intros. simpl. by rewrite Hq. }
  split.
  - rewrite applyCommands_unfold by by rewrite Hcmds.
    rewrite Hcmds.
    change (winners 0 [p1_right; p2_left]) with [("p-1", 0%nat); ("p-2", 1%nat)].
    change (players (PushCommand p2_left (PushCommand p1_right g))) with (players g).
    set (last := (group_last 0 _ _).1).
    set (g0 := set_commands _ _).
    destruct (first_come_first_served last g0 (build_occupied (go_range (players g)))
                ("p-1", 0%nat) ("p-2", 1%nat)
                (mkPlayer "p-1" "A" 0 1 0) (mkPlayer "p-2" "B" 2 1 0) (1, 1))
      as [Hb Ha]; try done.
    + simpl. rewrite Hp. by apply duel_players_lookup; left.
    + simpl. rewrite Hp. by apply duel_players_lookup; right.
    + unfold dest. simpl. by rewrite HW.
    + split; [|exact Hb]. destruct Ha as [[_ Hnone]|[Ha _]]; [|exact Ha].
      simpl in Hnone. destruct (Hnone "s1" (mkSweet "s1" 1 1)); [|done].
      rewrite Hs. by apply duel_sweets_lookup.
  - rewrite applyCommands_unfold by by rewrite Hcmds.
    rewrite Hcmds.
    change (winners 0 [p2_left; p1_right]) with [("p-2", 0%nat); ("p-1", 1%nat)].
    change (players (PushCommand p1_right (PushCommand p2_left g))) with (players g).
    set (last := (group_last 0 _ _).1).
    set (g0 := set_commands _ _).
    destruct (first_come_first_served last g0 (build_occupied (go_range (players g)))
                ("p-2", 0%nat) ("p-1", 1%nat)
                (mkPlayer "p-2" "B" 2 1 0) (mkPlayer "p-1" "A" 0 1 0) (1, 1))
      as [Hb Ha]; try done.
    + simpl. rewrite Hp. by apply duel_players_lookup; right.
    + simpl. rewrite Hp. by apply duel_players_lookup; left.
    + unfold dest. simpl. by rewrite HW.
    + split; [|exact Hb]. destruct Ha as [[_ Hnone]|[Ha _]]; [|exact Ha].
      simpl in Hnone. destruct (Hnone "s1" (mkSweet "s1" 1 1)); [|done].
      rewrite Hs. by apply duel_sweets_lookup.
Qed.

End Contest.

(** ** The winners, in the words of the specification *)

Lemma winners_ascending idx cmds : StronglySorted entry_lt (winners idx cmds).
Proof.
  revert idx. induction cmds as [|c cs IH]; intros idx; simpl; [constructor|].
  case_bool_decide; [done|]. constructor; [done|].
  apply Forall_forall. intros [id i] [Hi _]%elem_of_winners.
  unfold entry_lt. simpl. lia.
Qed.

Lemma winners_ids idx cmds id :
  id ∈ fst <$> winners idx cmds ↔ id ∈ PlayerID <$> cmds.
Proof.
  revert idx. induction cmds as [|c cs IH]; intros idx; simpl; [done|].
  case_bool_decide as Hin.
  - rewrite IH, elem_of_cons. split; [by right|]. by intros [->|?].
  - simpl. by rewrite !elem_of_cons, IH.
Qed.

Lemma winners_one_per_player idx cmds : NoDup (fst <$> winners idx cmds).
Proof.
  revert idx. induction cmds as [|c cs IH]; intros idx; simpl; [constructor|].
  case_bool_decide as Hin; [done|]. simpl. constructor; [|done].
  by rewrite winners_ids.
Qed.

Lemma winners_spec cmds id i :
  (id, i) ∈ winners 0 cmds ↔
  ∃ c, cmds !! i = Some c ∧ PlayerID c = id ∧
       ∀ j c', (i < j)%nat → cmds !! j = Some c' → PlayerID c' ≠ id.
Proof.
  rewrite elem_of_winners, Nat.sub_0_r. split.
  - intros (_ & c & Hc & Hid & Hlater). exists c. split_and!; [done..|].
    intros j c' Hlt Hj Hid'. apply Hlater. apply list_elem_of_fmap.
    exists c'. split; [done|]. apply list_elem_of_lookup.
    exists (j - S i)%nat. rewrite lookup_drop. by replace (S i + (j - S i))%nat with j by lia.
  - intros (c & Hc & Hid & Hlater). split; [lia|]. exists c. split_and!; [done..|].
    intros (c' & Hid' & [k Hk]%list_elem_of_lookup)%list_elem_of_fmap.
    rewrite lookup_drop in Hk. by apply (Hlater (S i + k)%nat c'); [lia|..].
Qed.

Lemma duel_game_duel : duel duel_game.
Proof. by repeat split. Qed.

(** ** Claims on the resolver *)

(** C1.  [applyCommands] keeps one command per player, the one that arrived
    last, and runs the survivors in ascending order of that command's
    arrival index: the loop over the sorted entries is the loop over
    [winners], and the command run for a winner is the one found at its
    index.  [winners] lists every player of the queue once, by strictly
    increasing index, each with the index of its last command.  A move
    whose destination the occupancy map gives to another player leaves the
    state as it is; a move to a cell that is free or the mover's own puts
    the mover there.  So when two players ask for the same free cell, the
    one whose entry comes first gets it (with the sweet, if one lies
    there) and the other one stays.  In the duel (P1 at (0,1), P2 at
    (2,1), a sweet at (1,1)) the player enqueued first ends at (1,1) with
    score 1 and the other one stays with score 0. *)
Theorem arrival_order_resolution {MR : MapRange} :
  (∀ g, commands g ≠ [] →
     let cmds := commands g in
     let last := (group_last 0 cmds (∅, ∅)).1 in
     applyCommands g =
       (foldl (process_entry last)
          (set_commands (λ _, []) g, build_occupied (go_range (players g)))
          (winners 0 cmds)).1 ∧
     ∀ id i, (id, i) ∈ winners 0 cmds → last !! id = cmds !! i) ∧
  (∀ cmds,
     StronglySorted entry_lt (winners 0 cmds) ∧
     NoDup (fst <$> winners 0 cmds) ∧
     (∀ c, c ∈ cmds → PlayerID c ∈ fst <$> winners 0 cmds) ∧
     ∀ id i, (id, i) ∈ winners 0 cmds ↔
       ∃ c, cmds !! i = Some c ∧ PlayerID c = id ∧
            ∀ j c', (i < j)%nat → cmds !! j = Some c' → PlayerID c' ≠ id) ∧
  (∀ last st e p occ,
     players st.1 !! e.1 = Some p →
     st.2 !! dest st.1 p (last !!! e.1) = Some occ → occ ≠ ID p →
     process_entry last st e = st) ∧
  (∀ last st e p,
     players st.1 !! e.1 = Some p →
     st.2 !! dest st.1 p (last !!! e.1) = None ∨
     st.2 !! dest st.1 p (last !!! e.1) = Some (ID p) →
     ∃ p', players (process_entry last st e).1 !! e.1 = Some p' ∧
           (X p', Y p') = dest st.1 p (last !!! e.1) ∧
           (process_entry last st e).2 !! (X p', Y p') = Some (ID p)) ∧
  (∀ last g occupied e1 e2 pa pb cell,
     keyed_by_id g → occ_exact g occupied → e1.1 ≠ e2.1 →
     players g !! e1.1 = Some pa → players g !! e2.1 = Some pb →
     dest g pa (last !!! e1.1) = cell → dest g pb (last !!! e2.1) = cell →
     occupied !! cell = None →
     let st := foldl (process_entry last) (g, occupied) [e1; e2] in
     players st.1 !! e2.1 = Some pb ∧
     ((players st.1 !! e1.1 = Some (set_pos cell.1 cell.2 pa) ∧
       ∀ sid s, sweets g !! sid = Some s →
                ¬ (SweetX s = cell.1 ∧ SweetY s = cell.2)) ∨
      (players st.1 !! e1.1 =
         Some (set_score (wrap (Score pa + 1)) (set_pos cell.1 cell.2 pa)) ∧
       ∃ sid s, sweets g !! sid = Some s ∧ SweetX s = cell.1 ∧ SweetY s = cell.2 ∧
                sweets st.1 = delete sid (sweets g)))) ∧
  (∀ g, duel g →
     let first := applyCommands (PushCommand p2_left (PushCommand p1_right g)) in
     let second := applyCommands (PushCommand p1_right (PushCommand p2_left g)) in
     (players first !! "p-1" = Some (mkPlayer "p-1" "A" 1 1 1) ∧
      players first !! "p-2" = Some (mkPlayer "p-2" "B" 2 1 0)) ∧
     (players second !! "p-2" = Some (mkPlayer "p-2" "B" 1 1 1) ∧
      players second !! "p-1" = Some (mkPlayer "p-1" "A" 0 1 0))).
Proof.
  split_and!.
  - intros g Hne cmds last. split; [by apply applyCommands_unfold|].
    intros id i Hw. unfold last. rewrite (group_last_cmd 0 cmds _ id i Hw).
    by rewrite Nat.sub_0_r.
  - intros cmds. split_and!.
    + apply winners_ascending.
    + apply winners_one_per_player.
    + intros c Hc. apply winners_ids. apply list_elem_of_fmap. eauto.
    + apply winners_spec.
  - intros last st e p occ Hp Hocc Hne.
    apply (process_entry_blocked _ _ _ p Hp). apply blocked_true. eauto.
  - intros last st e p Hp Hfree.
    apply blocked_false in Hfree.
    destruct (process_entry_moved_players last st e p Hp Hfree) as [Hocc Hcases].
    destruct Hcases as [(Hpl & _)|(? & ? & _ & _ & _ & Hpl & _)];
      rewrite Hpl, lookup_insert_eq; eexists; (split; [done|]); simpl;
      rewrite Hocc, <- surjective_pairing, lookup_insert_eq; done.
  - apply @first_come_first_served.
  - apply duel_outcome.
Qed.

Lemma arrival_order_resolution_witness :
  duel duel_game ∧
  players (@applyCommands canonical_range
             (PushCommand p2_left (PushCommand p1_right duel_game))) !! "p-1"
    = Some (mkPlayer "p-1" "A" 1 1 1).
Proof.
  split; [exact duel_game_duel|].
  pose proof (@arrival_order_resolution canonical_range)
    as (_ & _ & _ & _ & _ & Hduel).
  exact (proj1 (proj1 (Hduel duel_game duel_game_duel))).
Defined.

(** C2.  A tick that starts with no two players on one cell ends with no
    two players on one cell.  [keyed_by_id] is the shape of every player
    map the package builds: each player sits under the id it carries. *)
Theorem no_overlap_preserved {MR : MapRange} (g : Game) :
  keyed_by_id g → no_overlap g → no_overlap (applyCommands g).
Proof. intros Hk Hno. by apply applyCommands_invariant. Qed.

Lemma no_overlap_preserved_witness :
  keyed_by_id duel_game ∧ no_overlap duel_game ∧
  no_overlap (@applyCommands canonical_range
                (PushCommand p2_left (PushCommand p1_right duel_game))).
Proof.
  split; [exact (duel_keyed duel_game duel_game_duel)|].
  split; [exact (duel_no_overlap duel_game duel_game_duel)|].
  apply (@no_overlap_preserved canonical_range).
  - exact (duel_keyed duel_game duel_game_duel).
  - exact (duel_no_overlap duel_game duel_game_duel).
Defined.

(** C3.  Every destination computed for a player inside the grid lies
    inside the grid, for the four directions, for an absolute target
    however far out, and for anything else; hence a tick keeps all players
    inside the grid. *)
Theorem moves_stay_in_bounds {MR : MapRange} (g : Game) :
  is_int (W g) → is_int (H g) →
  (∀ p c, in_grid g (X p) (Y p) → in_grid g (dest g p c).1 (dest g p c).2) ∧
  (in_bounds g → in_bounds (applyCommands g)).
Proof.
  intros HW HH. split.
  - intros p c. by apply dest_in_grid.
  - by apply applyCommands_in_bounds.
Qed.

Lemma moves_stay_in_bounds_witness :
  is_int (W duel_game) ∧ is_int (H duel_game) ∧
  in_grid duel_game
    (dest duel_game (mkPlayer "p-1" "A" 0 1 0) (mkCommand "p-1" "move_abs" "" 99 (-5))).1
    (dest duel_game (mkPlayer "p-1" "A" 0 1 0) (mkCommand "p-1" "move_abs" "" 99 (-5))).2.
Proof.
  assert (is_int 3) as H3 by (unfold is_int, int_min, int_max; lia).
  split; [exact H3|]. split; [exact H3|].
  apply (@moves_stay_in_bounds canonical_range duel_game H3 H3).
  unfold in_grid. simpl. lia.
Defined.

(** ** Commands of unknown players, commands that stay put *)

Lemma process_entries_dead {MR : MapRange} last st es :
  (∀ e, e ∈ es → players st.1 !! e.1 = None) →
  foldl (process_entry last) st es = st.
Proof.
  induction es as [|e es IH]; intros Hdead; simpl; [done|].
  rewrite process_entry_dead by (apply Hdead; by left).
  apply IH. intros e' ?. apply Hdead. by right.
Qed.

Lemma process_entry_dom {MR : MapRange} last st e :
  dom (players (process_entry last st e).1) = dom (players st.1).
Proof.
  unfold process_entry. cbv zeta.
  destruct (players st.1 !! e.1) as [p|] eqn:Hp; [|done].
  case_match; [done|]. simpl.
  destruct (collect_players e.1
    (set_pos (dest st.1 p (last !!! e.1)).1 (dest st.1 p (last !!! e.1)).2 p) st.1)
    as [s ->].
  rewrite dom_insert_L. apply elem_of_dom_2 in Hp.
  apply leibniz_equiv. intros x. rewrite elem_of_union, elem_of_singleton.
  split; [intros [->|?]; done|by right].
Qed.

Lemma process_entries_live {MR : MapRange} last st es :
  foldl (process_entry last) st es =
  foldl (process_entry last) st (filter (λ e, is_Some (players st.1 !! e.1)) es).
Proof.
  revert st. induction es as [|e es IH]; intros st; simpl; [done|].
  assert (∀ e' : entry, is_Some (players (process_entry last st e).1 !! e'.1) ↔
                is_Some (players st.1 !! e'.1)) as Hdom.
  { intros e'. by rewrite <- !elem_of_dom, process_entry_dom. }
  rewrite IH, (list_filter_iff _ _ _ Hdom). rewrite filter_cons.
  case_decide as Hlive; [done|].
  rewrite process_entry_dead; [done|]. by apply eq_None_not_Some.
Qed.

(** C10.  A command whose player is not in the game is skipped without any
    effect: the loop body returns the state (players, sweets, tick, and
    the occupancy map) as it received it, so the loop over all entries is
    the loop over the entries of live players; a queue of such commands
    only gets drained.  [applyCommands] is a total function: it has no
    failing result. *)
Theorem unknown_player_skipped {MR : MapRange} :
  (∀ last st e, players st.1 !! e.1 = None → process_entry last st e = st) ∧
  (∀ last st es,
     foldl (process_entry last) st es =
     foldl (process_entry last) st
       (filter (λ e, is_Some (players st.1 !! e.1)) es)) ∧
  (∀ g, (∀ c, c ∈ commands g → players g !! PlayerID c = None) →
     applyCommands g = set_commands (λ _, []) g).
Proof.
  split_and!.
  - apply @process_entry_dead.
  - apply @process_entries_live.
  - intros g Hdead. destruct (commands g) as [|c cs] eqn:Hq.
    { unfold applyCommands. by rewrite Hq. }
    rewrite applyCommands_unfold by by rewrite Hq.
    rewrite process_entries_dead; [done|].
    intros [id i] Hin. simpl.
    assert (id ∈ PlayerID <$> commands g) as (c' & -> & Hc')%list_elem_of_fmap.
    { apply (winners_ids 0). apply list_elem_of_fmap. by exists (id, i). }
    apply Hdead. by rewrite <- Hq.
Qed.

Lemma unknown_player_skipped_witness :
  (∀ c, c ∈ commands ghost_game → players ghost_game !! PlayerID c = None) ∧
  @applyCommands canonical_range ghost_game = set_commands (λ _, []) ghost_game.
Proof.
  assert (∀ c, c ∈ commands ghost_game → players ghost_game !! PlayerID c = None) as Hdead.
  { intros c Hc. apply list_elem_of_singleton in Hc. by subst. }
  split; [exact Hdead|].
  pose proof (@unknown_player_skipped canonical_range) as (_ & _ & Htick).
  exact (Htick ghost_game Hdead).
Defined.

Lemma stay_put_dest g p c : stay_put c → dest g p c = (X p, Y p).
Proof.
  unfold dest. intros [(-> & ? & ? & ? & ?)|[? ?]].
  - rewrite decide_True by done. by rewrite !decide_False by done.
  - by rewrite !decide_False by done.
Qed.

Lemma set_pos_same p : set_pos (X p) (Y p) p = p.
Proof. by destruct p. Qed.

(** A command that stays put is accepted wherever the occupancy map is
    exact, and the sweet check runs on the player's cell. *)
Lemma stay_put_step {MR : MapRange} last st e p :
  players st.1 !! e.1 = Some p →
  stay_put (last !!! e.1) →
  keyed_by_id st.1 → occ_exact st.1 st.2 →
  accepted_in_place last st e p.
Proof.
  intros Hp Hstay Hk Hocc. unfold accepted_in_place.
  pose proof (stay_put_dest st.1 p _ Hstay) as Hd.
  assert (st.2 !! (X p, Y p) = Some (ID p)) as Hself.
  { apply Hocc. exists p. by rewrite (Hk _ _ Hp). }
  assert (blocked st.2 (dest st.1 p (last !!! e.1)) (ID p) = false) as Hnb.
  { apply blocked_false. right. by rewrite Hd. }
  split; [done|].
  rewrite (process_entry_moved last st e p Hp Hnb). rewrite Hd. simpl.
  rewrite set_pos_same.
  assert (set_players <[e.1 := p]> st.1 = st.1) as ->.
  { unfold set_players. rewrite insert_id by done. by destruct st.1. }
  split.
  { rewrite insert_delete_eq. by apply insert_id. }
  destruct (collect_sweet_cases e.1 p st.1) as [[-> Hno]|(sid & s & Hs & HX & HY & ->)].
  - by left.
  - right. by exists sid, s.
Qed.

(** The occupancy map is exact all along a tick that starts without
    overlap. *)
Lemma tick_prefix_invariant {MR : MapRange} last g es :
  keyed_by_id g → no_overlap g →
  let st :=
    foldl (process_entry last)
      (set_commands (λ _, []) g, build_occupied (go_range (players g))) es in
  keyed_by_id st.1 ∧ occ_exact st.1 st.2.
Proof.
  intros Hk Hno.
  apply (foldl_invariant
    (λ st : Game * gmap (Z * Z) string, keyed_by_id st.1 ∧ occ_exact st.1 st.2)).
  - intros st e _. apply process_entry_invariant.
  - split; [done|]. by apply (build_occupied_exact (set_commands (λ _, []) g)).
Qed.

(** C8.  A [move] with an unknown direction, or a command of an unknown
    type, has the player's own cell as destination.  Where the occupancy
    map holds exactly the cells of the players, and so at every entry of
    a tick that starts without overlap, it is accepted: the position and
    the occupancy map stay as they are and the sweet check runs on the
    player's cell.  If no sweet lies there nothing changes; otherwise one
    sweet of that cell is removed, the player gains a point and the
    [collected] event is sent. *)
Theorem stay_put_move_collects {MR : MapRange} :
  (∀ last st e p,
     players st.1 !! e.1 = Some p →
     stay_put (last !!! e.1) →
     keyed_by_id st.1 → occ_exact st.1 st.2 →
     accepted_in_place last st e p) ∧
  (∀ g es1 e es2 p,
     keyed_by_id g → no_overlap g →
     winners 0 (commands g) = es1 ++ e :: es2 →
     let last := (group_last 0 (commands g) (∅, ∅)).1 in
     let st :=
       foldl (process_entry last)
         (set_commands (λ _, []) g, build_occupied (go_range (players g))) es1 in
     players st.1 !! e.1 = Some p →
     stay_put (last !!! e.1) →
     accepted_in_place last st e p ∧
     applyCommands g = (foldl (process_entry last) (process_entry last st e) es2).1).
Proof.
  split; [apply @stay_put_step|].
  intros g es1 e es2 p Hk Hno Hw last st Hp Hstay.
  destruct (tick_prefix_invariant last g es1 Hk Hno) as [Hk' Hocc'].
  split; [by apply stay_put_step|].
  rewrite applyCommands_unfold.
  - rewrite Hw, foldl_app. done.
  - intros Hq. rewrite Hq in Hw. by destruct es1.
Qed.

Lemma stay_put_move_collects_witness :
  stay_put (picnic_last !!! "p-1") ∧
  keyed_by_id picnic_state.1 ∧ occ_exact picnic_state.1 picnic_state.2 ∧
  (@process_entry canonical_range picnic_last picnic_state ("p-1", 0%nat)).2
    = picnic_state.2 ∧
  players (@applyCommands canonical_range picnic_game) !! "p-1"
    = Some (mkPlayer "p-1" "A" 1 1 1) ∧
  sweets (@applyCommands canonical_range picnic_game) = ∅.
Proof.
  assert (stay_put (picnic_last !!! "p-1")) as Hstay.
  { left. by repeat split. }
  assert (keyed_by_id picnic_state.1) as Hk.
  { intros id p Hl. simpl in Hl.
    apply lookup_insert_Some in Hl as [[<- <-]|[_ Hl]]; done. }
  assert (no_overlap picnic_state.1) as Hno.
  { intros id1 id2 p1 p2 H1 H2 _ _. simpl in H1, H2.
    apply lookup_insert_Some in H1 as [[<- _]|[_ H1]]; [|done].
    apply lookup_insert_Some in H2 as [[<- _]|[_ H2]]; done. }
  pose proof (@build_occupied_exact canonical_range picnic_state.1 Hk Hno) as Hocc.
  split; [exact Hstay|]. split; [exact Hk|]. split; [exact Hocc|].
  split.
  - exact (proj1 (proj2 (proj1 (@stay_put_move_collects canonical_range) picnic_last
             picnic_state ("p-1", 0%nat) (mkPlayer "p-1" "A" 1 1 0)
             eq_refl Hstay Hk Hocc))).
  - split; vm_compute; reflexivity.
Defined.

(** ** Admission of players *)

Section Admission.
Context {MR : MapRange}.

Lemma free_spec g x y :
  free (go_range (players g)) x y = true ↔ cell_free g x y.
Proof.
  unfold free, cell_free. rewrite negb_true_iff, <- not_true_iff_false.
  rewrite existsb_exists. split.
  - intros Hno id p Hp [HX HY]. apply Hno. exists (id, p). split.
    + apply list_elem_of_In. by apply elem_of_go_range.
    + simpl. apply andb_true_iff. by rewrite !Z.eqb_eq.
  - intros Hfree ([id p] & Hin & Hpos). apply list_elem_of_In, elem_of_go_range in Hin.
    apply andb_true_iff in Hpos as [?%Z.eqb_eq ?%Z.eqb_eq]. by apply (Hfree id p).
Qed.

Lemma Intn_ok r n :
  0 < n →
  ∃ v, Intn r n = Ok (v, mkRand (rand_src r) (S (rand_pos r))) ∧ 0 ≤ v < n.
Proof.
  intros Hn. unfold Intn. rewrite decide_False by lia.
  eexists. split; [done|]. by apply Z.mod_pos_bound.
Qed.

Lemma Intn_panic r n : n ≤ 0 → Intn r n = Panic.
Proof. intros Hn. unfold Intn. by rewrite decide_True. Qed.

(** With a proper grid the probing loop never panics, and what it finds
    is a free cell of the grid. *)
Lemma probe_spec n g r :
  0 < W g → 0 < H g →
  ∃ res r', probe n g r = Ok (res, r') ∧
    ∀ x y, res = Some (x, y) → in_grid g x y ∧ cell_free g x y.
Proof.
  intros HW HH. revert r. induction n as [|n IH]; intros r; simpl.
  - by exists None, r.
  - destruct (Intn_ok r (W g) HW) as (x & -> & Hx). simpl.
    destruct (Intn_ok (mkRand (rand_src r) (S (rand_pos r))) (H g) HH) as (y & -> & Hy).
    simpl. destruct (free (go_range (players g)) x y) eqn:Hfree.
    + eexists _, _. split; [done|]. intros ?? [= <- <-].
      split; [done|]. by apply free_spec.
    + apply IH.
Qed.

Lemma elem_of_grid_cells g x y : (x, y) ∈ grid_cells g ↔ in_grid g x y.
Proof.
  unfold grid_cells, in_grid. rewrite list_elem_of_bind. split.
  - intros (y' & (x' & [= -> ->] & Hx)%list_elem_of_fmap & Hy).
    apply elem_of_seqZ in Hx, Hy. lia.
  - intros [Hx Hy]. exists y. split.
    + apply list_elem_of_fmap. exists x. split; [done|]. apply elem_of_seqZ. lia.
    + apply elem_of_seqZ. lia.
Qed.

Lemma scan_Some g x y : scan g = Some (x, y) → in_grid g x y ∧ cell_free g x y.
Proof.
  unfold scan. destruct (list_find _ _) as [[i c]|] eqn:Hfind; [|done].
  intros [= ->]. apply list_find_Some in Hfind as (Hi & Hfree & _).
  split.
  - apply elem_of_grid_cells, list_elem_of_lookup. eauto.
  - by apply free_spec.
Qed.

Lemma scan_None g : scan g = None ↔ grid_full g.
Proof.
  unfold scan, grid_full. rewrite fmap_None, list_find_None, Forall_forall. split.
  - intros Hall x y Hin Hfree. apply (Hall (x, y)).
    + by apply elem_of_grid_cells.
    + by apply free_spec.
  - intros Hfull [x y] Hin%elem_of_grid_cells Hfree%free_spec. by apply (Hfull x y).
Qed.

Lemma scan_set_rand r g : scan (set_rand r g) = scan g.
Proof. done. Qed.

(** The outcomes of [AddPlayer] on a grid with positive dimensions. *)
Lemma AddPlayer_outcome (name : string) (g : Game) :
  0 < W g → 0 < H g →
  ∃ res g', AddPlayer name g = Ok (res, g') ∧
    (res = None ↔ grid_full g) ∧
    ((∃ x y, in_grid g x y ∧ cell_free g x y) → is_Some res) ∧
    (res = None → players g' = players g) ∧
    (∀ p, res = Some p →
       in_grid g (X p) (Y p) ∧ cell_free g (X p) (Y p) ∧
       Score p = 0 ∧ Name p = name ∧
       players g' = <[ID p := p]> (players g)).
Proof.
  intros HW HH. unfold AddPlayer.
  destruct (probe_spec 1000 g (rand g) HW HH) as (found & r & -> & Hfound).
  simpl.
  assert (∀ res : option Player,
    (res = None ↔ grid_full g) →
    (∃ x y, in_grid g x y ∧ cell_free g x y) → is_Some res) as Hsome.
  { intros res Hiff (x & y & Hin & Hfree).
    destruct res; [by eexists|]. by destruct (proj1 Hiff eq_refl x y). }
  destruct found as [[x y]|].
  - destruct (Hfound x y eq_refl) as [Hin Hfree].
    eexists _, _. split; [done|].
    assert (Some (mkPlayer (sprintf_d "p-" (Z.of_nat (size (players g)) + 1)) name x y 0)
              = None ↔ grid_full g) as Hiff.
    { split; [done|]. intros Hfull. by destruct (Hfull x y). }
    split_and!; [done|by apply Hsome|done|].
    by intros p [= <-].
  - rewrite scan_set_rand. destruct (scan g) as [[x y]|] eqn:Hscan.
    + apply scan_Some in Hscan as [Hin Hfree].
      eexists _, _. split; [done|].
      assert (Some (mkPlayer (sprintf_d "p-" (Z.of_nat (size (players (set_rand r g))) + 1))
                      name x y 0) = None ↔ grid_full g) as Hiff.
      { split; [done|]. intros Hfull. by destruct (Hfull x y). }
      split_and!; [done|by apply Hsome|done|].
      by intros p [= <-].
    + apply scan_None in Hscan.
      eexists _, _. split; [done|].
      split_and!; [done|by apply Hsome|done|done].
Qed.

(** C7.  On a grid with positive dimensions [AddPlayer] returns [nil]
    exactly when every cell of the grid carries a player.  Otherwise it
    returns a player of the given name with score 0 on a cell of the grid
    on which no player stood, and stores it under its id. *)
Theorem AddPlayer_fails_iff_grid_full (name : string) (g : Game) :
  0 < W g → 0 < H g →
  ∃ res g', AddPlayer name g = Ok (res, g') ∧
    (res = None ↔ grid_full g) ∧
    ((∃ x y, in_grid g x y ∧ cell_free g x y) → is_Some res) ∧
    (res = None → players g' = players g) ∧
    (∀ p, res = Some p →
       in_grid g (X p) (Y p) ∧ cell_free g (X p) (Y p) ∧
       Score p = 0 ∧ Name p = name ∧
       players g' = <[ID p := p]> (players g)).
Proof. apply AddPlayer_outcome. Qed.

(** On a grid without columns or rows the first draw panics. *)
Lemma AddPlayer_degenerate_grid name g :
  W g ≤ 0 → AddPlayer name g = Panic.
Proof. intros HW. unfold AddPlayer. simpl. by rewrite Intn_panic. Qed.

End Admission.

(** ** [AddPlayer] and the iteration order *)

Lemma free_any_range {MR : MapRange} g x y :
  free (go_range (players g)) x y = free (map_to_list (players g)) x y.
Proof.
  apply eq_true_iff_eq. rewrite free_spec.
  symmetry. apply (@free_spec canonical_range).
Qed.

Lemma probe_any_range {MR : MapRange} n g r :
  probe n g r = @probe canonical_range n g r.
Proof.
  revert r. induction n as [|n IH]; intros r; simpl; [done|].
  destruct (Intn r (W g)) as [[x r1]|]; simpl; [|done].
  destruct (Intn r1 (H g)) as [[y r2]|]; simpl; [|done].
  by rewrite free_any_range, IH.
Qed.

Lemma scan_any_range {MR : MapRange} g : scan g = @scan canonical_range g.
Proof.
  unfold scan. f_equal. apply list_find_ext. intros [x y]. simpl.
  by rewrite free_any_range.
Qed.

(** [AddPlayer] only asks whether some player stands on a cell, so the
    order in which the players are visited does not show in its result. *)
Lemma AddPlayer_any_range {MR : MapRange} name g :
  AddPlayer name g = @AddPlayer canonical_range name g.
Proof.
  unfold AddPlayer. rewrite probe_any_range.
  destruct (probe 1000 g (rand g)) as [[[[x y]|] r]|]; simpl; [done| |done].
  by rewrite !scan_set_rand, scan_any_range.
Qed.

Lemma AddPlayer_fails_iff_grid_full_witness :
  0 < W crowded_game ∧ 0 < H crowded_game ∧ grid_full crowded_game ∧
  ∃ g', @AddPlayer canonical_range "B" crowded_game = Ok (None, g').
Proof.
  assert (0 < W crowded_game) as HW by (simpl; lia).
  assert (0 < H crowded_game) as HH by (simpl; lia).
  assert (grid_full crowded_game) as Hfull.
  { intros x y [Hx Hy] Hfree. simpl in Hx, Hy.
    apply (Hfree "p-1" (mkPlayer "p-1" "A" 0 0 0)); [done|]. simpl. lia. }
  split; [exact HW|]. split; [exact HH|]. split; [exact Hfull|].
  destruct (@AddPlayer_fails_iff_grid_full canonical_range "B" crowded_game HW HH)
    as (res & g' & Heq & Hiff & _).
  exists g'. rewrite Heq. by rewrite (proj2 Hiff Hfull).
Defined.

(** A newcomer may land on a sweet; the sweet stays and the score is 0. *)
Example AddPlayer_spawns_on_sweet :
  @AddPlayer canonical_range "A"
    (mkGame 3 3 ∅ (<["s1" := mkSweet "s1" 0 1]> ∅) [] [] [] 0
       (mkRand (λ i, Z.of_nat i) 0))
  = Ok (Some (mkPlayer "p-1" "A" 0 1 0),
        mkGame 3 3 (<["p-1" := mkPlayer "p-1" "A" 0 1 0]> ∅)
          (<["s1" := mkSweet "s1" 0 1]> ∅) [] [] [] 0
          (mkRand (λ i, Z.of_nat i) 2)).
Proof. vm_compute. reflexivity. Qed.

(** ** Ids after a player has left *)

(** The session [churn]: when C joins, B is in the game under "p-2"; C is
    given the id "p-2" as well and takes B's place in the player map. *)
Lemma churn_outcome {MR : MapRange} :
  ∃ g3 g4,
    churn = Ok (Some (mkPlayer "p-1" "A" 0 1 0),
                Some (mkPlayer "p-2" "B" 2 0 0),
                Some (mkPlayer "p-2" "C" 1 2 0), g3, g4) ∧
    players g3 = <["p-2" := mkPlayer "p-2" "B" 2 0 0]> ∅ ∧
    players g4 = <["p-2" := mkPlayer "p-2" "C" 1 2 0]> ∅.
Proof.
  unfold churn. eexists _, _.
  assert (NewGame (λ i, Z.of_nat i) 3 3 0
          = Ok (mkGame 3 3 ∅ ∅ [] [] [] 0 (mkRand (λ i, Z.of_nat i) 0))) as -> by done.
  simpl. rewrite AddPlayer_any_range.
  assert (@AddPlayer canonical_range "A"
            (mkGame 3 3 ∅ ∅ [] [] [] 0 (mkRand (λ i, Z.of_nat i) 0))
          = Ok (Some (mkPlayer "p-1" "A" 0 1 0),
                mkGame 3 3 (<["p-1" := mkPlayer "p-1" "A" 0 1 0]> ∅) ∅ [] [] [] 0
                  (mkRand (λ i, Z.of_nat i) 2))) as -> by (vm_compute; reflexivity).
  simpl. rewrite AddPlayer_any_range.
  assert (@AddPlayer canonical_range "B"
            (mkGame 3 3 (<["p-1" := mkPlayer "p-1" "A" 0 1 0]> ∅) ∅ [] [] [] 0
               (mkRand (λ i, Z.of_nat i) 2))
          = Ok (Some (mkPlayer "p-2" "B" 2 0 0),
                mkGame 3 3
                  (<["p-2" := mkPlayer "p-2" "B" 2 0 0]>
                     (<["p-1" := mkPlayer "p-1" "A" 0 1 0]> ∅)) ∅ [] [] [] 0
                  (mkRand (λ i, Z.of_nat i) 4))) as -> by (vm_compute; reflexivity).
  simpl. rewrite AddPlayer_any_range.
  assert (RemovePlayer "p-1"
            (mkGame 3 3
               (<["p-2" := mkPlayer "p-2" "B" 2 0 0]>
                  (<["p-1" := mkPlayer "p-1" "A" 0 1 0]> ∅)) ∅ [] [] [] 0
               (mkRand (λ i, Z.of_nat i) 4))
          = mkGame 3 3 (<["p-2" := mkPlayer "p-2" "B" 2 0 0]> ∅) ∅ [] [] [] 0
              (mkRand (λ i, Z.of_nat i) 4)) as -> by (vm_compute; reflexivity).
  assert (@AddPlayer canonical_range "C"
            (mkGame 3 3 (<["p-2" := mkPlayer "p-2" "B" 2 0 0]> ∅) ∅ [] [] [] 0
               (mkRand (λ i, Z.of_nat i) 4))
          = Ok (Some (mkPlayer "p-2" "C" 1 2 0),
                mkGame 3 3 (<["p-2" := mkPlayer "p-2" "C" 1 2 0]> ∅) ∅ [] [] [] 0
                  (mkRand (λ i, Z.of_nat i) 6))) as -> by (vm_compute; reflexivity).
  simpl. done.
Qed.

(** C5.  The ids of the players in the game are the keys of the player map
    and so pairwise distinct, but an id does not stay with its player:
    [AddPlayer] numbers the newcomer after the current number of players,
    and after a leave that number is the id of a player still in the game.
    In [churn], B is in the game under "p-2" when C joins; C receives
    "p-2" too and is stored in B's place, so that B is gone without any
    [RemovePlayer]. *)
Theorem AddPlayer_replaces_live_player {MR : MapRange} :
  ∃ a b c g3 g4,
    churn = Ok (a, Some b, Some c, g3, g4) ∧
    players g3 !! ID b = Some b ∧
    ID c = ID b ∧ Name c ≠ Name b ∧
    players g4 !! ID b = Some c ∧
    size (players g4) = 1%nat.
Proof.
  destruct churn_outcome as (g3 & g4 & -> & Hp3 & Hp4).
  eexists _, _, _, _, _. split; [done|]. rewrite Hp3, Hp4. simpl.
  by split_and!.
Qed.

(** What [AddPlayer] leaves alone: everything but the random source and
    the entry of the player map under the id it hands out. *)
Lemma AddPlayer_frame {MR : MapRange} name g res g' :
  AddPlayer name g = Ok (res, g') →
  W g' = W g ∧ H g' = H g ∧ sweets g' = sweets g ∧ commands g' = commands g ∧
  StateBroadcast g' = StateBroadcast g ∧ EventBroadcast g' = EventBroadcast g ∧
  tick g' = tick g ∧
  match res with
  | Some p =>
      Score p = 0 ∧ ID p = sprintf_d "p-" (Z.of_nat (size (players g)) + 1) ∧
      players g' = <[ID p := p]> (players g)
  | None => players g' = players g
  end.
Proof.
  unfold AddPlayer.
  destruct (probe 1000 g (rand g)) as [[[[x y]|] r]|]; simpl; [| |done].
  - by intros [= <- <-].
  - rewrite scan_set_rand. destruct (scan g) as [[x y]|]; by intros [= <- <-].
Qed.

(** C9.  [AddPlayer] leaves the sweets alone (see [AddPlayer_frame]), but
    not always the players that were there: in [churn] the player found
    under "p-2" before C joins is B at (2,0), and after the join the entry
    under "p-2" carries C's name and C's position. *)
Theorem AddPlayer_overwrites_existing_entry {MR : MapRange} :
  ∃ a b c g3 g4,
    churn = Ok (a, b, Some c, g3, g4) ∧
    ∃ id p p',
      players g3 !! id = Some p ∧ players g4 !! id = Some p' ∧
      Name p' ≠ Name p ∧ (X p', Y p') ≠ (X p, Y p).
Proof.
  destruct churn_outcome as (g3 & g4 & -> & Hp3 & Hp4).
  eexists _, _, _, _, _. split; [done|].
  exists "p-2", (mkPlayer "p-2" "B" 2 0 0), (mkPlayer "p-2" "C" 1 2 0).
  rewrite Hp3, Hp4. by split_and!.
Qed.

(** ** Generation of the sweets *)

Global Instance sprintf_d_inj prefix : Inj (=) (=) (sprintf_d prefix).
Proof.
  intros a b. unfold sprintf_d. induction prefix as [|ch prefix IH]; simpl.
  - apply pretty_Z_inj.
  - intros [= ?]. by apply IH.
Qed.

(** The loop that fills the map of sweets, on a grid with positive
    dimensions: it does not panic, it adds the ids s(i+1) .. s(i+n), and
    every sweet it adds lies in the grid under its own id. *)
Lemma gen_sweets_spec n i w h ss r :
  0 < w → 0 < h →
  ∃ ss' r', gen_sweets n i w h ss r = Ok (ss', r') ∧
    dom ss' = dom ss ∪ list_to_set (sprintf_d "s" <$> seqZ (i + 1) (Z.of_nat n)) ∧
    ∀ id s, ss' !! id = Some s →
      ss !! id = Some s ∨
      (SweetID s = id ∧ (0 ≤ SweetX s < w ∧ 0 ≤ SweetY s < h) ∧
       ∃ k, i + 1 ≤ k ≤ i + Z.of_nat n ∧ id = sprintf_d "s" k).
Proof.
  intros Hw Hh. revert i ss r. induction n as [|n IH]; intros i ss r.
  - exists ss, r. split; [done|]. split; [|by left].
    rewrite seqZ_nil by done. simpl.
    apply leibniz_equiv. intros x. rewrite elem_of_union, elem_of_empty. tauto.
  - simpl gen_sweets.
    destruct (Intn_ok r w Hw) as (x & -> & Hx). simpl.
    destruct (Intn_ok (mkRand (rand_src r) (S (rand_pos r))) h Hh) as (y & -> & Hy).
    simpl.
    destruct (IH (i + 1) (<[sprintf_d "s" (i + 1) := mkSweet (sprintf_d "s" (i + 1)) x y]> ss)
                (mkRand (rand_src r) (S (S (rand_pos r)))))
      as (ss' & r' & -> & Hdom & Hin).
    exists ss', r'. split; [done|]. split.
    + rewrite Hdom, dom_insert_L.
      rewrite (seqZ_cons (i + 1) (Z.of_nat (S n))) by lia.
      replace (Z.pred (Z.of_nat (S n))) with (Z.of_nat n) by lia.
      replace (Z.succ (i + 1)) with (i + 1 + 1) by lia. simpl.
      apply leibniz_equiv. intros e. rewrite !elem_of_union. tauto.
    + intros id s Hs. destruct (Hin id s Hs) as [Hold|(? & ? & k & ? & ?)].
      * apply lookup_insert_Some in Hold as [[<- <-]|[_ ?]]; [|by left].
        right. simpl. split; [done|]. split; [done|].
        exists (i + 1). split; [lia|done].
      * right. split; [done|]. split; [done|]. exists k. split; [lia|done].
Qed.

Lemma NoDup_sweet_ids i n : NoDup (sprintf_d "s" <$> seqZ i n).
Proof. apply NoDup_fmap; [apply _|apply NoDup_seqZ]. Qed.

Lemma gen_sweets_fresh n w h r :
  0 < w → 0 < h →
  ∃ ss' r', gen_sweets n 0 w h ∅ r = Ok (ss', r') ∧
    size ss' = n ∧
    ∀ id s, ss' !! id = Some s →
      SweetID s = id ∧ (0 ≤ SweetX s < w ∧ 0 ≤ SweetY s < h) ∧
      ∃ k, 1 ≤ k ≤ Z.of_nat n ∧ id = sprintf_d "s" k.
Proof.
  intros Hw Hh.
  destruct (gen_sweets_spec n 0 w h ∅ r Hw Hh) as (ss' & r' & Heq & Hdom & Hin).
  exists ss', r'. split; [done|]. split.
  - rewrite <- size_dom, Hdom, dom_empty_L, (left_id_L ∅ (∪)).
    rewrite size_list_to_set by apply NoDup_sweet_ids.
    rewrite length_fmap, length_seqZ. lia.
  - intros id s Hs. destruct (Hin id s Hs) as [Hold|(? & ? & k & ? & ?)]; [done|].
    split; [done|]. split; [done|]. exists k. split; [lia|done].
Qed.

(** C6, counterexample.  A new 3x3 game with two sweets whose draws are
    all 0 has both sweets on the cell (0,0). *)
Lemma NewGame_sweets_overlap :
  ∃ g, NewGame (λ _, 0) 3 3 2 = Ok g ∧ ¬ sweets_apart g.
Proof.
  eexists. split; [reflexivity|].
  intros Hapart.
  assert ("s1" = "s2") as Habs; [|done].
  apply (Hapart "s1" "s2" (mkSweet "s1" 0 0) (mkSweet "s2" 0 0)); done.
Qed.

(** On a grid of one cell the overlap does not depend on the draws. *)
Lemma NewGame_single_cell_overlap seed :
  ∃ g, NewGame seed 1 1 2 = Ok g ∧ ¬ sweets_apart g.
Proof.
  unfold NewGame. simpl. unfold Intn. simpl. rewrite !Z.mod_1_r.
  eexists. split; [done|]. simpl.
  intros Hapart.
  assert ("s1" = "s2") as Habs; [|done].
  apply (Hapart "s1" "s2" (mkSweet "s1" 0 0) (mkSweet "s2" 0 0)); done.
Qed.

(** [Restart] does not look at the players either: here all twenty sweets
    are put on the cell of the only player. *)
Example Restart_sweets_on_player :
  ∃ g, Round.Restart crowded_game = Ok g ∧
       size (sweets g) = 20%nat ∧
       players g !! "p-1" = Some (mkPlayer "p-1" "A" 0 0 0) ∧
       sweets g !! "s7" = Some (mkSweet "s7" 0 0).
Proof. eexists. split; [vm_compute; reflexivity|]. by split_and!. Qed.

(** C6, as amended.  On a grid with positive dimensions [NewGame] makes
    the requested number of sweets and [Restart] makes twenty; they are
    named s1, s2, ... and each lies inside the grid.  Nothing is said
    about the cells being free or distinct. *)
Theorem sweets_generated_in_grid :
  (∀ seed w h n, 0 < w → 0 < h →
     ∃ g, NewGame seed w h n = Ok g ∧
          W g = w ∧ H g = h ∧ players g = ∅ ∧ fresh_sweets g (Z.to_nat n)) ∧
  (∀ g, 0 < W g → 0 < H g →
     ∃ g', Round.Restart g = Ok g' ∧ fresh_sweets g' 20).
Proof.
  split.
  - intros seed w h n Hw Hh. unfold NewGame.
    destruct (gen_sweets_fresh (Z.to_nat n) w h (mkRand seed 0) Hw Hh)
      as (ss & r & -> & Hsize & Hin).
    simpl. eexists. split; [done|]. by split_and!.
  - intros g HW HH. unfold Round.Restart. cbv zeta.
    change (W (set_players (fmap (set_score 0)) g)) with (W g).
    change (H (set_players (fmap (set_score 0)) g)) with (H g).
    change (rand (set_players (fmap (set_score 0)) g)) with (rand g).
    destruct (gen_sweets_fresh 20 (W g) (H g) (rand g) HW HH)
      as (ss & r & -> & Hsize & Hin).
    eexists. split; [done|]. by split.
Qed.

Lemma sweets_generated_in_grid_witness :
  0 < 3 ∧ ∃ g, NewGame (λ _, 0) 3 3 2 = Ok g ∧ fresh_sweets g 2.
Proof.
  assert (0 < 3) as H3 by lia.
  split; [exact H3|].
  destruct (proj1 sweets_generated_in_grid (λ _, 0) 3 3 2 H3 H3)
    as (g & Heq & _ & _ & _ & Hfresh).
  exists g. split; [exact Heq|exact Hfresh].
Defined.

(** ** The end of a round *)

Section RoundEnd.
Context {MR : MapRange}.

Lemma count_game_over_try_send ch m :
  count_game_over (try_send broadcast_cap ch m) =
  if decide (length ch < broadcast_cap)%nat
  then (count_game_over ch + if is_game_over m then 1 else 0)%nat
  else count_game_over ch.
Proof.
  unfold try_send, count_game_over. case_decide; [|done].
  rewrite filter_app, length_app. f_equal.
  rewrite filter_cons, filter_nil. by destruct m.
Qed.

Lemma collect_game_over id p g :
  count_game_over (EventBroadcast (collect id p g)) = count_game_over (EventBroadcast g).
Proof.
  unfold collect. case_match; [|done]. simpl.
  rewrite count_game_over_try_send. simpl. case_decide; lia.
Qed.

Lemma process_command_frame g st c :
  round_frame g st → round_frame g (Round.process_command st c).
Proof.
  intros Hfr. unfold Round.process_command. cbv zeta.
  case_decide; [done|].
  destruct (players st.1 !! PlayerID c) as [p|]; [|done].
  case_match; [done|].
  destruct Hfr as (? & ? & ? & ? & ? & ?). unfold round_frame. simpl.
  autorewrite with frame. by rewrite collect_game_over.
Qed.

Lemma Round_applyCommands_frame g :
  let g' := Round.applyCommands g in
  W g' = W g ∧ H g' = H g ∧ rand g' = rand g ∧ tick g' = tick g ∧
  commands g' = [] ∧
  count_game_over (EventBroadcast g') = count_game_over (EventBroadcast g).
Proof.
  unfold Round.applyCommands. destruct (commands g) as [|c cs]; [done|].
  apply (foldl_invariant (round_frame g)); [|done].
  intros st c' _. apply process_command_frame.
Qed.

Lemma PushCommand_frame cs g :
  let g' := foldl (λ g c, PushCommand c g) g cs in
  W g' = W g ∧ H g' = H g ∧ rand g' = rand g ∧ tick g' = tick g ∧
  players g' = players g ∧ sweets g' = sweets g ∧
  EventBroadcast g' = EventBroadcast g ∧ StateBroadcast g' = StateBroadcast g.
Proof.
  simpl.
  apply (foldl_invariant (λ g', W g' = W g ∧ H g' = H g ∧ rand g' = rand g ∧
    tick g' = tick g ∧ players g' = players g ∧ sweets g' = sweets g ∧
    EventBroadcast g' = EventBroadcast g ∧ StateBroadcast g' = StateBroadcast g));
    [|done].
  by intros g' c _ ?.
Qed.

Lemma final_scores_spec g id nm sc :
  (id, nm, sc) ∈ Round.final_scores g ↔
  ∃ k p, players g !! k = Some p ∧ ID p = id ∧ Name p = nm ∧ Score p = sc.
Proof.
  unfold Round.final_scores. rewrite list_elem_of_fmap. split.
  - intros ([k p] & [= -> -> ->] & Hin%elem_of_go_range). by exists k, p.
  - intros (k & p & Hp & <- & <- & <-). exists (k, p). split; [done|].
    by apply elem_of_go_range.
Qed.

Lemma final_scores_length g : length (Round.final_scores g) = size (players g).
Proof.
  unfold Round.final_scores. rewrite length_fmap, go_range_perm.
  apply length_map_to_list.
Qed.

End RoundEnd.

(** C4.  In the revision with rounds, one turn of the loop of [Start]
    sends [game_over] when, and only when, no sweet is left after the
    commands were applied; it sends it once.  The message lists the id,
    name and score of every player in the game.  The loop then restarts
    the round: every score is 0, there are twenty new sweets s1 .. s20
    inside the grid, and the queue is empty whatever was submitted during
    the pause.  As every send of the package, the send drops the message
    when ten messages already wait in [EventBroadcast]. *)
Theorem round_completion {MR : MapRange} (during_pause : list Command) (g : Game) :
  0 < W g → 0 < H g →
  let g1 := broadcastState (Round.applyCommands (set_tick (λ t, wrap (t + 1)) g)) in
  count_game_over (EventBroadcast g1) = count_game_over (EventBroadcast g) ∧
  (SweetsCount g1 ≠ 0 → Round.Start_tick during_pause g = Ok g1) ∧
  (SweetsCount g1 = 0 →
     ∃ g', Round.Start_tick during_pause g = Ok g' ∧
       EventBroadcast g' =
         try_send broadcast_cap (EventBroadcast g1)
           (GameOverEvent (Round.final_scores g1)) ∧
       ((length (EventBroadcast g1) < broadcast_cap)%nat →
          count_game_over (EventBroadcast g') = S (count_game_over (EventBroadcast g))) ∧
       (∀ id nm sc, (id, nm, sc) ∈ Round.final_scores g1 ↔
          ∃ k p, players g1 !! k = Some p ∧ ID p = id ∧ Name p = nm ∧ Score p = sc) ∧
       length (Round.final_scores g1) = size (players g1) ∧
       players g' = set_score 0 <$> players g1 ∧
       fresh_sweets g' 20 ∧
       commands g' = [] ∧
       tick g' = wrap (tick g + 1)).
Proof.
  intros HW HH g1.
  pose proof (Round_applyCommands_frame (set_tick (λ t, wrap (t + 1)) g))
    as (EW & EH & Er & Et & Eq & Ec).
  simpl in EW, EH, Er, Et, Ec.
  assert (W g1 = W g ∧ H g1 = H g ∧ tick g1 = wrap (tick g + 1) ∧
          EventBroadcast g1 =
            EventBroadcast (Round.applyCommands (set_tick (λ t, wrap (t + 1)) g)))
    as (EW1 & EH1 & Et1 & Ee1) by done.
  split; [by rewrite Ee1|].
  unfold Round.Start_tick. fold g1. split.
  { intros Hne. by rewrite decide_False. }
  intros Hzero. rewrite decide_True by done.
  set (g2 := set_EventBroadcast _ g1).
  pose proof (PushCommand_frame during_pause g2)
    as (EW3 & EH3 & Er3 & Et3 & Ep3 & Es3 & Ee3 & _).
  simpl in EW3, EH3, Er3, Et3, Ep3, Es3, Ee3.
  set (g3 := foldl (λ g c, PushCommand c g) g2 during_pause) in *.
  assert (0 < W g3) as HW3 by (rewrite EW3; simpl; lia).
  assert (0 < H g3) as HH3 by (rewrite EH3; simpl; lia).
  unfold Round.Restart. cbv zeta.
  change (W (set_players (fmap (set_score 0)) g3)) with (W g3).
  change (H (set_players (fmap (set_score 0)) g3)) with (H g3).
  change (rand (set_players (fmap (set_score 0)) g3)) with (rand g3).
  destruct (gen_sweets_fresh 20 (W g3) (H g3) (rand g3) HW3 HH3)
    as (ss & r & -> & Hsize & Hin).
  eexists. split; [done|]. simpl.
  split_and!.
  - by rewrite Ee3.
  - intros Hroom. rewrite Ee3. unfold g2. simpl.
    rewrite count_game_over_try_send, decide_True by done. simpl.
    rewrite Ec. lia.
  - apply (final_scores_spec g1).
  - apply (final_scores_length g1).
  - by rewrite Ep3.
  - split; [done|]. intros id s Hs.
    destruct (Hin id s Hs) as (? & ? & ?). split; [done|]. by split.
  - done.
  - by rewrite Et3.
Qed.

Lemma round_completion_witness :
  0 < W last_sweet_game ∧ 0 < H last_sweet_game ∧
  SweetsCount (@broadcastState canonical_range
                 (@Round.applyCommands canonical_range
                    (set_tick (λ t, wrap (t + 1)) last_sweet_game))) = 0 ∧
  ∃ g', @Round.Start_tick canonical_range [p2_left] last_sweet_game = Ok g' ∧
        EventBroadcast g' =
          [CollectedEvent "p-1" "s1" 42;
           GameOverEvent [("p-1", "A", 5); ("p-2", "B", 1)]] ∧
        players g' =
          <["p-1" := mkPlayer "p-1" "A" 1 1 0]>
            (<["p-2" := mkPlayer "p-2" "B" 2 2 0]> ∅) ∧
        fresh_sweets g' 20 ∧ commands g' = [].
Proof.
  assert (0 < W last_sweet_game) as HW by (simpl; lia).
  assert (0 < H last_sweet_game) as HH by (simpl; lia).
  assert (SweetsCount (@broadcastState canonical_range
            (@Round.applyCommands canonical_range
               (set_tick (λ t, wrap (t + 1)) last_sweet_game))) = 0) as Hzero
    by (vm_compute; reflexivity).
  split; [exact HW|]. split; [exact HH|]. split; [exact Hzero|].
  destruct (@round_completion canonical_range [p2_left] last_sweet_game HW HH)
    as (_ & _ & Hover).
  destruct (Hover Hzero) as (g' & Heq & Hev & _ & _ & _ & Hpl & Hfresh & Hq & _).
  exists g'. split; [exact Heq|]. split; [|split; [|split; [exact Hfresh|exact Hq]]].
  - rewrite Hev. vm_compute. reflexivity.
  - rewrite Hpl. vm_compute. reflexivity.
Defined.

(** ** The invariants hold in every game the package builds *)

Section Reachable.
Context {MR : MapRange}.

Lemma NewGame_invariant seed w h n g :
  NewGame seed w h n = Ok g → keyed_by_id g ∧ no_overlap g.
Proof.
  unfold NewGame. destruct (gen_sweets _ _ _ _ _ _) as [[ss r]|]; [|done].
  simpl. intros [= <-]. split; intros ?; intros; simplify_map_eq.
Qed.

Lemma AddPlayer_invariant name g res g' :
  AddPlayer name g = Ok (res, g') →
  keyed_by_id g → no_overlap g → keyed_by_id g' ∧ no_overlap g'.
Proof.
  intros Hadd Hk Hno.
  assert (0 < W g ∧ 0 < H g) as [HW HH].
  { destruct (decide (0 < W g)) as [HW|HW].
    - split; [done|]. destruct (decide (0 < H g)) as [|HH]; [done|].
      exfalso. revert Hadd. unfold AddPlayer. simpl.
      destruct (Intn_ok (rand g) (W g) HW) as (x & -> & _). simpl.
      rewrite Intn_panic by lia. done.
    - rewrite AddPlayer_degenerate_grid in Hadd by lia. done. }
  destruct (AddPlayer_outcome name g HW HH)
    as (res' & g'' & Heq & _ & _ & Hnone & Hsome).
  rewrite Hadd in Heq. injection Heq as <- <-.
  destruct res as [p|];
    [|unfold keyed_by_id, no_overlap; by rewrite (Hnone eq_refl)].
  destruct (Hsome p eq_refl) as (_ & Hfree & _ & _ & Hpl).
  split.
  - intros id q. rewrite Hpl. intros [[<- <-]|[_ ?]]%lookup_insert_Some; [done|].
    by apply Hk.
  - intros id1 id2 p1 p2. rewrite Hpl.
    intros [[<- <-]|[? H1]]%lookup_insert_Some [[<- <-]|[? H2]]%lookup_insert_Some HX HY.
    + done.
    + by destruct (Hfree _ _ H2).
    + by destruct (Hfree _ _ H1).
    + by apply (Hno _ _ _ _ H1 H2).
Qed.

Lemma RemovePlayer_invariant id g :
  keyed_by_id g → no_overlap g →
  keyed_by_id (RemovePlayer id g) ∧ no_overlap (RemovePlayer id g).
Proof.
  intros Hk Hno. unfold keyed_by_id, no_overlap, RemovePlayer. simpl. split.
  - intros k p [_ Hp]%lookup_delete_Some. by apply Hk.
  - intros id1 id2 p1 p2 [_ H1]%lookup_delete_Some [_ H2]%lookup_delete_Some.
    by apply Hno.
Qed.

(** The loop of [Start] in game.go sends no [game_over]. *)
Lemma Start_tick_no_game_over g :
  count_game_over (EventBroadcast (Start_tick g)) = count_game_over (EventBroadcast g).
Proof.
  unfold Start_tick, broadcastState. simpl.
  unfold applyCommands. simpl.
  destruct (commands g) as [|c cs]; [done|].
  destruct (group_last 0 (c :: cs) (∅, ∅)) as [last lastIndex].
  apply (foldl_invariant
    (λ st : Game * gmap (Z * Z) string,
       count_game_over (EventBroadcast st.1) = count_game_over (EventBroadcast g)));
    [|done].
  intros st e _ Hst. unfold process_entry. cbv zeta.
  repeat case_match; simpl; try done. by rewrite collect_game_over.
Qed.

End Reachable.

(** ** The unit tests of the package *)

Example TestMoveAndCollision :
  players (@collision_test canonical_range) !! "p-1"
    = Some (mkPlayer "p-1" "A" 1 1 0).
Proof. vm_compute. reflexivity. Qed.

Example TestCollectSweet :
  players (@collect_test canonical_range) !! "p-1"
    = Some (mkPlayer "p-1" "A" 1 0 1) ∧
  sweets (@collect_test canonical_range) = ∅.
Proof. split; vm_compute; reflexivity. Qed.

Example TestCollectedEventEmitted :
  ∃ g, @event_test canonical_range = Ok g ∧
       EventBroadcast g = [CollectedEvent "p-1" "s1" 0].
Proof. eexists. split; vm_compute; reflexivity. Qed.

(** The command queue and the broadcast channels drop what does not fit. *)
Example PushCommand_drops_when_full (c : Command) (g : Game) :
  length (commands g) = commands_cap → PushCommand c g = g.
Proof.
  intros Hfull. unfold PushCommand, set_commands, try_send.
  rewrite decide_False by lia. by destruct g.
Qed.
